(** * UGMtester: the quiz engine of [main.py]

    A shallow embedding of the quiz runner's core (mode resolution, resolution
    of the correct letter, the submit handler with its one-failure lock, the
    totals and the reset) and the properties of its specification, followed
    by the flattening of the bank, the widgets of the question, the summary
    panel and further properties of the runs of the script.

    Modelling conventions.
    - Python [int] is [Z]; a [dict] keyed by question number is a [gmap Z _];
      the [set] of locked numbers is a [gset Z].
    - Text is a [string].  [Text.strip], [Text.upper] and [Text.lower] are
      Python's methods on ASCII text only (characters above 127 are left
      alone by the case mappings and are not white space, unlike in Python);
      they serve to run the code on ASCII inputs.  The resolution of the
      correct letter is also given over arbitrary methods
      ([get_correct_letter_with]), and its agreement with the specification
      is proved there, for Unicode text as well.
    - A JSON value read with [q.get(...)] is a [pyval]; a missing key reads as
      [PNone].  Fractional numbers, arrays and objects do not occur in the
      fields of a question and are left out.
    - [st.session_state] is the record [session], passed explicitly. *)

From Stdlib Require Import ZArith String Ascii List Bool Lia DecimalString.
From stdpp Require Import base gmap strings list fin_maps.

Open Scope string_scope.
Open Scope Z_scope.

(** ** Text *)

Module Text.

(** [str.strip], [str.upper] and [str.lower] restricted to ASCII: on text
    with other characters (accented letters, U+00A0, ...) Python does more
    than these do.

    White space as [str.isspace] sees it below 128: TAB, LF, VT, FF, CR,
    the four separators FS, GS, RS, US and the space. *)
Definition is_space (c : ascii) : bool :=
  let k := N_of_ascii c in
  (N.leb 9 k && N.leb k 13) || (N.leb 28 k && N.leb k 32).

Definition upper_char (c : ascii) : ascii :=
  let k := N_of_ascii c in
  if N.leb 97 k && N.leb k 122 then ascii_of_N (k - 32) else c.

Definition lower_char (c : ascii) : ascii :=
  let k := N_of_ascii c in
  if N.leb 65 k && N.leb k 90 then ascii_of_N (k + 32) else c.

Fixpoint upper (s : string) : string :=
  match s with
  | EmptyString => EmptyString
  | String c s' => String (upper_char c) (upper s')
  end.

Fixpoint lower (s : string) : string :=
  match s with
  | EmptyString => EmptyString
  | String c s' => String (lower_char c) (lower s')
  end.

Fixpoint lstrip (s : string) : string :=
  match s with
  | EmptyString => EmptyString
  | String c s' => if is_space c then lstrip s' else s
  end.

Fixpoint rstrip (s : string) : string :=
  match s with
  | EmptyString => EmptyString
  | String c s' =>
      match rstrip s' with
      | EmptyString => if is_space c then EmptyString else String c EmptyString
      | t => String c t
      end
  end.

Definition strip (s : string) : string := rstrip (lstrip s).

End Text.

(** ** JSON values as the code observes them *)

Inductive pyval :=
  | PNone
  | PBool (b : bool)
  | PInt (z : Z)
  | PStr (s : string).

(** [bool(v)]: what [if v] tests. *)
Definition truthy (v : pyval) : bool :=
  match v with
  | PNone => false
  | PBool b => b
  | PInt z => negb (Z.eqb z 0)
  | PStr s => negb (String.eqb s "")
  end.

(** [str(v)]. *)
Definition py_str (v : pyval) : string :=
  match v with
  | PNone => "None"
  | PBool true => "True"
  | PBool false => "False"
  | PInt z => NilZero.string_of_int (Z.to_int z)
  | PStr s => s
  end.

(** ** Questions *)

(** A flattened question: the keys of the JSON object that the engine reads,
    with [lote_id] as [flatten_questions] copied it from the batch
    ([None] when the batch has no identifier). *)
Record question := Question {
  n : Z;
  lote_id : option Z;
  pregunta : string;
  respuesta_a : pyval;
  respuesta_b : pyval;
  respuesta_c : pyval;
  correcta : pyval
}.

(** The test of the loop over [mapping.items()]:
    [v and str(v).strip().lower() == corr.strip().lower()]. *)
Definition option_matches (corr : string) (kv : string * pyval) : bool :=
  truthy kv.2 &&
  String.eqb (Text.lower (Text.strip (py_str kv.2))) (Text.lower (Text.strip corr)).

(** [get_correct_letter]: the loop returns at the first entry that passes
    the test, in the insertion order A, B, C of [mapping]. *)
Definition get_correct_letter (q : question) : string :=
  match correcta q with
  | PStr corr =>
      let corr_up := Text.upper (Text.strip corr) in
      if bool_decide (corr_up ∈ ["A"; "B"; "C"]) then corr_up
      else
        let mapping :=
          [("A", respuesta_a q); ("B", respuesta_b q); ("C", respuesta_c q)] in
        match List.find (option_matches corr) mapping with
        | Some kv => kv.1
        | None => "A"
        end
  | _ => "A"
  end.

(** ** Session state *)

(** An entry of [st.session_state.answers].  Every record the code stores
    carries the four keys, so the defaults of [a.get("attempts", 0)] and
    [a.get("correct", False)] only matter for an absent record. *)
Record answer := Answer {
  attempts : Z;
  correct : bool;
  selected : option string;
  a_lote_id : option Z
}.

Record session := Session {
  mode : string;
  show_correct_between : bool;
  current_index : Z;
  answers : gmap Z answer;
  locked : gset Z;
  last_feedback : option string
}.

(** [_init_state] on a fresh session. *)
Definition init_state : session :=
  Session "full" false 0 ∅ ∅ None.

Definition set_mode (m : string) (ss : session) : session :=
  Session m (show_correct_between ss) (current_index ss) (answers ss) (locked ss) (last_feedback ss).
Definition set_show_correct_between (b : bool) (ss : session) : session :=
  Session (mode ss) b (current_index ss) (answers ss) (locked ss) (last_feedback ss).
Definition set_current_index (i : Z) (ss : session) : session :=
  Session (mode ss) (show_correct_between ss) i (answers ss) (locked ss) (last_feedback ss).
Definition set_answers (m : gmap Z answer) (ss : session) : session :=
  Session (mode ss) (show_correct_between ss) (current_index ss) m (locked ss) (last_feedback ss).
Definition set_locked (l : gset Z) (ss : session) : session :=
  Session (mode ss) (show_correct_between ss) (current_index ss) (answers ss) l (last_feedback ss).
Definition set_last_feedback (f : option string) (ss : session) : session :=
  Session (mode ss) (show_correct_between ss) (current_index ss) (answers ss) (locked ss) f.

(** [answers.get(k, {}).get("correct", False)] and
    [answers.get(k, {}).get("attempts", 0)]. *)
Definition get_correct (oa : option answer) : bool :=
  match oa with Some a => correct a | None => false end.
Definition get_attempts (oa : option answer) : Z :=
  match oa with Some a => attempts a | None => 0 end.

(** A call either returns a value or raises. *)
Inductive py_result (A : Type) :=
  | Returns (a : A)
  | Raises (e : string).
Arguments Returns {A} a.
Arguments Raises {A} e.

(** [s.replace(old, new)] for a non-empty [old]: every occurrence, left to
    right, without overlap.  [skip] counts the characters of an occurrence
    still to be dropped. *)
Fixpoint replace_go (old new : string) (skip : nat) (s : string) : string :=
  match s with
  | EmptyString => EmptyString
  | String c s' =>
      match skip with
      | S k => replace_go old new k s'
      | O =>
          if String.prefix old s
          then new ++ replace_go old new (Nat.pred (String.length old)) s'
          else String c (replace_go old new O s')
      end
  end.
Definition replace (old new s : string) : string := replace_go old new O s.

(** [int(s)] on an unsigned decimal numeral; anything else is a
    [ValueError] (signs, blanks and underscores are not needed for the
    arguments the engine passes). *)
Definition digit_of (c : ascii) : option Z :=
  let k := N_of_ascii c in
  if N.leb 48 k && N.leb k 57 then Some (Z.of_N (k - 48)) else None.
Fixpoint py_int_go (acc : Z) (s : string) : option Z :=
  match s with
  | EmptyString => Some acc
  | String c s' =>
      match digit_of c with
      | Some d => py_int_go (10 * acc + d) s'
      | None => None
      end
  end.
Definition py_int (s : string) : option Z :=
  match s with
  | EmptyString => None
  | _ => py_int_go 0 s
  end.

(** [l[i]], with Python's negative indices and [IndexError] as [None]. *)
Definition py_index {A} (l : list A) (i : Z) : option A :=
  let len := Z.of_nat (length l) in
  if Z.ltb i 0
  then (if Z.ltb (len + i) 0 then None else l !! Z.to_nat (len + i))
  else l !! Z.to_nat i.

(** The record a failed question has: answered at least once, not correct. *)
Definition failed (a : answer) : bool :=
  Z.leb 1 (attempts a) && negb (correct a).

(** Totals of the header; [progress] is a float quotient and is left out. *)
Record totals_t := Totals {
  t_attempted : Z;
  t_correct : Z;
  t_wrong : Z;
  t_total : Z;
  t_completed_lots : Z
}.

(** The entries of the side bar's selectbox and [mode_map]. *)
Inductive mode_label :=
  | HacerTestCompleto | HacerLote1 | HacerLote2 | HacerLote3 | Revision.

Definition mode_map (l : mode_label) : string :=
  match l with
  | HacerTestCompleto => "full"
  | HacerLote1 => "lote1"
  | HacerLote2 => "lote2"
  | HacerLote3 => "lote3"
  | Revision => "review"
  end.

#[global] Instance mode_label_eq_dec : EqDecision mode_label.
Proof. solve_decision. Defined.

(** The options of the radio. *)
Inductive radio_option := OptA | OptB | OptC.
#[global] Instance radio_option_eq_dec : EqDecision radio_option.
Proof. solve_decision. Defined.
Definition radio_value (o : radio_option) : string :=
  match o with OptA => "A" | OptB => "B" | OptC => "C" end.

(** What the user did to cause one run of the script: nothing (a rerun), or
    one widget. *)
Inductive event :=
  | Rerun
  | SelectMode (l : mode_label)
  | ToggleShow (b : bool)
  | ClickReset
  | ClickAnterior
  | ClickResponder (choice : radio_option)
  | ClickSiguiente.

#[global] Instance event_eq_dec : EqDecision event.
Proof. solve_decision. Defined.

Definition valid_modes : list string := ["full"; "lote1"; "lote2"; "lote3"; "review"].

Section Engine.

(** The flattened bank, built once at start-up. *)
Variable ALL_QUESTIONS : list question.

(** [get_questions_for_mode] (lines 56-66).  Only the membership of a number
    in [failed_ids] is observed, so the order of [answers.items()] does not
    matter.  The last line is the [return []] that an unknown mode reaches. *)
Definition get_questions_for_mode (ss : session) (mode : string)
  : py_result (list question) :=
  if String.eqb mode "full" then Returns ALL_QUESTIONS
  else if bool_decide (mode ∈ ["lote1"; "lote2"; "lote3"]) then
    match py_int (replace "lote" "" mode) with
    | Some target =>
        Returns (List.filter (λ q, bool_decide (lote_id q = Some target)) ALL_QUESTIONS)
    | None => Raises "ValueError"
    end
  else if String.eqb mode "review" then
    let failed_ids :=
      List.map fst (List.filter (λ na, failed na.2) (map_to_list (answers ss))) in
    Returns (List.filter (λ q, bool_decide (n q ∈ failed_ids)) ALL_QUESTIONS)
  else Returns [].

(** [is_lot_completed] (lines 83-92): the loop returns [False] at the first
    question of the batch whose record is absent or not correct. *)
Definition is_lot_completed (ss : session) (lote : Z) : bool :=
  let lot_questions :=
    List.filter (λ q, bool_decide (lote_id q = Some lote)) ALL_QUESTIONS in
  match lot_questions with
  | [] => false
  | _ => forallb (λ q, get_correct (answers ss !! n q)) lot_questions
  end.

(** [sum(1 for x in l if f(x))]. *)
Definition count_if {A} (f : A → bool) (l : list A) : Z :=
  Z.of_nat (length (List.filter f l)).

(** [totals] (lines 94-111). *)
Definition totals (ss : session) : totals_t :=
  let ans := map_to_list (answers ss) in
  let attempted := count_if (λ na, Z.leb 1 (attempts na.2)) ans in
  let correct := count_if (λ na, correct na.2) ans in
  let wrong := attempted - correct in
  let total_questions := Z.of_nat (length ALL_QUESTIONS) in
  let completed_lots := count_if (is_lot_completed ss) [1; 2; 3] in
  Totals attempted correct wrong total_questions completed_lots.

(** [reset_results], [next_question] and [prev_question] (lines 116-128). *)
Definition reset_results (ss : session) : session :=
  set_last_feedback None (set_current_index 0 (set_locked ∅ (set_answers ∅ ss))).

Definition next_question (ss : session) : session :=
  set_last_feedback None (set_current_index (current_index ss + 1) ss).

Definition prev_question (ss : session) : session :=
  set_last_feedback None (set_current_index (Z.max 0 (current_index ss - 1)) ss).

(** [disabled=(locked and not prev_answer.get("correct", False))] of the
    Responder button, for the question on display. *)
Definition responder_disabled (q : question) (ss : session) : bool :=
  bool_decide (n q ∈ locked ss) && negb (get_correct (answers ss !! n q)).

(** The body of [if submitted:] (lines 248-278), up to its [st.rerun()].  An
    existing record is the dictionary stored in [answers], updated in place
    and stored again; an absent one starts from the default of line 250.  The messages of
    [st.success] and [st.error] are drawn and lost with the rerun; they leave
    nothing in the session. *)
Definition submit_handler (q : question) (choice : string) (ss : session) : session :=
  let correct_letter := get_correct_letter q in
  let a := default (Answer 0 false None (lote_id q)) (answers ss !! n q) in
  if correct a then
    let a := Answer (attempts a) (correct a) (Some choice) (a_lote_id a) in
    next_question (set_answers (<[n q := a]> (answers ss)) ss)
  else
    let a := Answer (attempts a + 1) (correct a) (Some choice) (a_lote_id a) in
    if String.eqb choice correct_letter then
      let a := Answer (attempts a) true (selected a) (a_lote_id a) in
      next_question (set_answers (<[n q := a]> (answers ss)) ss)
    else
      next_question
        (set_locked ({[n q]} ∪ locked ss) (set_answers (<[n q := a]> (answers ss)) ss)).

(** A press of Responder on the question on display: the button gives
    [submitted = True] only when it is enabled. *)
Definition submit_answer (q : question) (choice : string) (ss : session) : session :=
  if responder_disabled q ss then ss else submit_handler q choice ss.

(** The question flow of one run: resolve the mode's list, stop on an empty
    one, clamp the index, take the question on display and let [on_display]
    act on it. *)
Definition question_flow (on_display : question → session → session) (ss : session)
  : session :=
  match get_questions_for_mode ss (mode ss) with
  | Raises _ => ss
  | Returns questions =>
      let total_in_mode := Z.of_nat (length questions) in
      if Z.eqb total_in_mode 0 then ss
      else
        let ss := set_current_index (Z.min (current_index ss) (total_in_mode - 1)) ss in
        match py_index questions (current_index ss) with
        | None => ss
        | Some q => on_display q ss
        end
  end.

(** A run in which no widget fired, as after [st.rerun()]. *)
Definition rerun (ss : session) : session := question_flow (λ _ ss, ss) ss.

(** The side bar: the mode selectbox and the check box. *)
Definition sidebar (ev : event) (ss : session) : session :=
  let ss :=
    match ev with
    | SelectMode l =>
        if negb (String.eqb (mode_map l) (mode ss))
        then set_last_feedback None (set_current_index 0 (set_mode (mode_map l) ss))
        else ss
    | _ => ss
    end in
  match ev with
  | ToggleShow b => set_show_correct_between b ss
  | _ => ss
  end.

(** One run of the script on an event, to the end of the rerun it asks for:
    the side bar, the reset button, then the question flow with the three
    buttons under the question. *)
Definition script_run (ev : event) (ss : session) : session :=
  let ss := sidebar ev ss in
  match ev with
  | ClickReset => rerun (reset_results ss)
  | _ =>
      question_flow
        (λ q ss,
           match ev with
           | ClickAnterior => rerun (prev_question ss)
           | ClickSiguiente => rerun (next_question ss)
           | ClickResponder choice =>
               if responder_disabled q ss then ss
               else rerun (submit_handler q (radio_value choice) ss)
           | _ => ss
           end)
        ss
  end.

(** The session after a sequence of events, oldest first. *)
Definition run_events (evs : list event) (ss : session) : session :=
  foldl (λ s ev, script_run ev s) ss evs.

End Engine.

(** ** The reference algorithm of the specification (section 4.3) *)

(** Equal without regard to case, both sides trimmed, on ASCII text (the
    comparison of line 79 at [Text.lower] and [Text.strip]). *)
Definition ci_equal (s t : string) : bool :=
  String.eqb (Text.lower (Text.strip s)) (Text.lower (Text.strip t)).

(** Step 2: the first of A, B, C whose option is [usable] and whose text
    equals [corr]. *)
Definition first_text_match (usable : pyval → bool) (corr : string) (q : question)
  : option string :=
  if usable (respuesta_a q) && ci_equal (py_str (respuesta_a q)) corr then Some "A"
  else if usable (respuesta_b q) && ci_equal (py_str (respuesta_b q)) corr then Some "B"
  else if usable (respuesta_c q) && ci_equal (py_str (respuesta_c q)) corr then Some "C"
  else None.

(** The values that have a text: all but a missing one. *)
Definition has_text (v : pyval) : bool :=
  match v with PNone => false | _ => true end.

Section TextMethods.

(** [str.upper], [str.lower] and [str.strip], whatever they compute: Python's
    act on all of Unicode, and [Text.upper], [Text.lower], [Text.strip] are
    what they do on ASCII text. *)
Variables upper lower strip : string → string.

(** [get_correct_letter] (lines 68-81) over these methods; the function
    [get_correct_letter] above is this one at [Text.upper], [Text.lower] and
    [Text.strip]. *)
Definition option_matches_with (corr : string) (kv : string * pyval) : bool :=
  truthy kv.2 &&
  String.eqb (lower (strip (py_str kv.2))) (lower (strip corr)).

Definition get_correct_letter_with (q : question) : string :=
  match correcta q with
  | PStr corr =>
      let corr_up := upper (strip corr) in
      if bool_decide (corr_up ∈ ["A"; "B"; "C"]) then corr_up
      else
        let mapping :=
          [("A", respuesta_a q); ("B", respuesta_b q); ("C", respuesta_c q)] in
        match List.find (option_matches_with corr) mapping with
        | Some kv => kv.1
        | None => "A"
        end
  | _ => "A"
  end.

(** The algorithm of section 4.3 in the words of the specification.
    Equality without regard to case, both sides trimmed: *)
Definition ci_equal_with (s t : string) : bool :=
  String.eqb (lower (strip s)) (lower (strip t)).

(** Step 1, on a [correcta] that is a string: the letter it equals. *)
Definition letter_key_with (corr : string) : option string :=
  if ci_equal_with corr "A" then Some "A"
  else if ci_equal_with corr "B" then Some "B"
  else if ci_equal_with corr "C" then Some "C"
  else None.

(** Step 2: the first of A, B, C whose option is [usable] and whose text
    equals the text [corr] of the key. *)
Definition first_text_match_with (usable : pyval → bool) (corr : string) (q : question)
  : option string :=
  if usable (respuesta_a q) && ci_equal_with (py_str (respuesta_a q)) corr then Some "A"
  else if usable (respuesta_b q) && ci_equal_with (py_str (respuesta_b q)) corr then Some "B"
  else if usable (respuesta_c q) && ci_equal_with (py_str (respuesta_c q)) corr then Some "C"
  else None.

(** Steps 1 to 3 as the specification words them: step 1 for a string;
    otherwise [correcta] is taken as literal answer text, a value that is no
    string by its rendering, and compared with the text of every option that
    has one; "A" when nothing matches (or [correcta] is missing). *)
Definition spec_correct_letter_with (q : question) : string :=
  match correcta q with
  | PStr corr =>
      match letter_key_with corr with
      | Some letter => letter
      | None => default "A" (first_text_match_with has_text corr q)
      end
  | v =>
      if has_text v
      then default "A" (first_text_match_with has_text (py_str v) q)
      else "A"
  end.

(** The same with the two guards of the code: step 2 passes over an option
    whose value is falsy (missing or empty), and a [correcta] that is no
    string goes to "A" at once. *)
Definition guarded_correct_letter_with (q : question) : string :=
  match correcta q with
  | PStr corr =>
      match letter_key_with corr with
      | Some letter => letter
      | None => default "A" (first_text_match_with truthy corr q)
      end
  | _ => "A"
  end.

(** What the two readings of "equal to a letter without regard to case"
    need to agree: a text whose upper case is "A", "B" or "C" is one whose
    lower case is that of the letter.  Python's methods have this property
    (only "a" and "A" go to "A", and so on), and so do [Text]'s. *)
Definition letters_fold_alike : Prop :=
  ∀ letter t, letter ∈ ["A"; "B"; "C"] →
              (upper t = letter ↔ lower t = lower (strip letter)).

End TextMethods.

(** Section 4.3 on ASCII text. *)
Definition spec_correct_letter : question → string :=
  spec_correct_letter_with Text.lower Text.strip.

(** An option that is an empty text, followed by one that is blank: the
    guard [if v] passes over the first, the comparison accepts the second. *)
Definition q_blank_options : question :=
  Question 7 (Some 1) "p" (PStr "") (PStr " ") (PStr "x") (PStr "").

(** A key that is a number, equal to the number given as option B: not a
    string, so the code does not compare it with the options. *)
Definition q_numeric_key : question :=
  Question 8 (Some 1) "p" (PStr "9") (PInt 10) (PStr "11") (PInt 10).

(** ** Predicates on records and sessions *)

(** [answers.get(k)] is a failed record. *)
Definition failed_record (oa : option answer) : bool :=
  match oa with Some a => failed a | None => false end.

(** Properties that only look at the answers and the locked set. *)
Definition records_only (P : session → Prop) : Prop :=
  ∀ s s', answers s' = answers s → locked s' = locked s → P s → P s'.

(** The invariant of the session: stored records have been attempted, and
    the locked numbers are those of the failed records. *)
Definition attempts_positive (ss : session) : Prop :=
  ∀ k a, answers ss !! k = Some a → 1 ≤ attempts a.

Definition locked_iff_failed (ss : session) : Prop :=
  ∀ k, k ∈ locked ss ↔
       ∃ a, answers ss !! k = Some a ∧ 1 ≤ attempts a ∧ correct a = false.

Definition session_inv (ss : session) : Prop :=
  attempts_positive ss ∧ locked_iff_failed ss.

(** A locked number with a record that is not correct ([oa] may be an absent
    record). *)
Definition stuck (k : Z) (oa : option answer) (s : session) : Prop :=
  k ∈ locked s ∧ answers s !! k = oa.

(** ** The scenario of the specification

    Three questions of batch 1 whose correct letters are A, B and C. *)

Definition scenario_q1 : question :=
  Question 1 (Some 1) "p1" (PStr "uno") (PStr "dos") (PStr "tres") (PStr "A").
Definition scenario_q2 : question :=
  Question 2 (Some 1) "p2" (PStr "uno") (PStr "dos") (PStr "tres") (PStr "B").
Definition scenario_q3 : question :=
  Question 3 (Some 1) "p3" (PStr "uno") (PStr "dos") (PStr "tres") (PStr "C").
Definition scenario_bank : list question := [scenario_q1; scenario_q2; scenario_q3].

(** A for question 1 (right), then A for question 2 (wrong). *)
Definition scenario_state : session :=
  run_events scenario_bank [ClickResponder OptA; ClickResponder OptA] init_state.

(** ** The bank as loaded, and the rest of the page *)

(** A batch of the JSON document: [lote.get("lote_id")] and
    [lote.get("preguntas", [])], a missing key being [None]. *)
Record lote := Lote {
  l_lote_id : option Z;
  preguntas : option (list question)
}.

(** The document: [bank.get("lotes", [])]. *)
Record bank_t := Bank { lotes : option (list lote) }.

(** [q_copy = dict(q); q_copy["lote_id"] = lote_id]: the key is set, or
    overwritten when the question had one. *)
Definition with_lote_id (l : option Z) (q : question) : question :=
  Question (n q) l (pregunta q) (respuesta_a q) (respuesta_b q) (respuesta_c q)
    (correcta q).

(** [flatten_questions] (lines 25-33): the two nested loops append in order. *)
Definition flatten_questions (bank : bank_t) : list question :=
  flat_map
    (λ lote, List.map (with_lote_id (l_lote_id lote)) (default [] (preguntas lote)))
    (default [] (lotes bank)).

(** [l.index(x)]: the position of the first [x], [None] for [ValueError]. *)
Fixpoint py_list_index (x : string) (l : list string) : option Z :=
  match l with
  | [] => None
  | y :: l' => if String.eqb y x then Some 0 else Z.succ <$> py_list_index x l'
  end.

(** The [index=] of the radio (line 230): the position of the stored
    selection when it is one of the three letters, else 0.
    [prev_answer.get("selected")] is [None] without a record. *)
Definition radio_index (prev_answer : option answer) : option Z :=
  match prev_answer ≫= selected with
  | Some sel =>
      if bool_decide (sel ∈ ["A"; "B"; "C"])
      then py_list_index sel ["A"; "B"; "C"]
      else Some 0
  | None => Some 0
  end.

(** The [disabled=] of the radio (line 231):
    [locked and prev_answer.get("correct") is False], which needs a record. *)
Definition radio_disabled (q : question) (ss : session) : bool :=
  bool_decide (n q ∈ locked ss) &&
  match answers ss !! n q with Some a => negb (correct a) | None => false end.

(** The summary panel of the mode (lines 285-288).  Python lists the numbers
    in the insertion order of [answers]; here they come in the order of
    [map_to_list], and only their lengths and members are used. *)
Definition mode_ids (questions : list question) : gset Z :=
  list_to_set (List.map n questions).

Definition mode_attempted (questions : list question) (ss : session) : list Z :=
  List.map fst
    (List.filter
       (λ na, bool_decide (na.1 ∈ mode_ids questions) && Z.leb 1 (attempts na.2))
       (map_to_list (answers ss))).

Definition mode_correct (questions : list question) (ss : session) : list Z :=
  List.map fst
    (List.filter
       (λ na, bool_decide (na.1 ∈ mode_ids questions) && correct na.2)
       (map_to_list (answers ss))).

Definition mode_wrong (questions : list question) (ss : session) : list Z :=
  List.map fst
    (List.filter
       (λ na, bool_decide (na.1 ∈ mode_ids questions) && Z.leb 1 (attempts na.2)
              && negb (correct na.2))
       (map_to_list (answers ss))).

(** ** Predicates for the further properties *)

(** A stored record as the handler writes it: one attempt, a letter of the
    radio, and the number and batch of a question of the bank. *)
Definition record_wf (bank : list question) (k : Z) (a : answer) : Prop :=
  attempts a = 1 ∧
  (∃ o, selected a = Some (radio_value o)) ∧
  ∃ q, q ∈ bank ∧ n q = k ∧ a_lote_id a = lote_id q.

Definition records_wf (bank : list question) (ss : session) : Prop :=
  ∀ k a, answers ss !! k = Some a → record_wf bank k a.

(** A session whose locks and records are as the script leaves them. *)
Definition session_wf (bank : list question) (ss : session) : Prop :=
  session_inv ss ∧ records_wf bank ss.

(** From one session to a later one: records stay, attempts do not go down,
    a correct record stays correct, a locked number stays locked. *)
Definition grows (s s' : session) : Prop :=
  ∀ k,
    (is_Some (answers s !! k) → is_Some (answers s' !! k)) ∧
    get_attempts (answers s !! k) ≤ get_attempts (answers s' !! k) ∧
    (get_correct (answers s !! k) = true → get_correct (answers s' !! k) = true) ∧
    (k ∈ locked s → k ∈ locked s').

(** The index is a position of the mode's list, when that list has one. *)
Definition index_in_range (bank : list question) (ss : session) : Prop :=
  0 ≤ current_index ss ∧
  ∀ qs, get_questions_for_mode bank ss (mode ss) = Returns qs → qs ≠ [] →
        current_index ss < Z.of_nat (length qs).

(** [x ∉ [a; b; ...]] for distinct closed terms. *)
Ltac not_in_list :=
  rewrite !not_elem_of_cons; repeat split; try discriminate; apply not_elem_of_nil.

(** ** Text lemmas *)

Section TextFacts.
Import Text.

Lemma ascii_of_N_inj (a b : N) :
  (a < 256)%N → (b < 256)%N → ascii_of_N a = ascii_of_N b ↔ a = b.
Proof.
  intros Ha Hb. split; [|congruence].
  intros H. apply (f_equal N_of_ascii) in H.
  by rewrite !N_ascii_embedding in H.
Qed.

Lemma upper_char_of_N (x k : N) :
  (x < 256)%N → (65 <= k <= 90)%N →
  upper_char (ascii_of_N x) = ascii_of_N k ↔
  lower_char (ascii_of_N x) = ascii_of_N (k + 32)%N.
Proof.
  intros Hx Hk. unfold upper_char, lower_char.
  rewrite N_ascii_embedding by exact Hx.
  destruct (N.leb_spec 97 x), (N.leb_spec x 122),
    (N.leb_spec 65 x), (N.leb_spec x 90); simpl;
    rewrite !ascii_of_N_inj by lia; lia.
Qed.

Lemma upper_char_is (c : ascii) (k : N) :
  (65 <= k <= 90)%N →
  upper_char c = ascii_of_N k ↔ lower_char c = ascii_of_N (k + 32)%N.
Proof.
  intros Hk. rewrite <- (ascii_N_embedding c).
  apply upper_char_of_N; [apply N_ascii_bounded | exact Hk].
Qed.

Lemma upper_is_letter (t : string) (k : N) :
  (65 <= k <= 90)%N →
  upper t = String (ascii_of_N k) EmptyString ↔
  lower t = String (ascii_of_N (k + 32)%N) EmptyString.
Proof.
  intros Hk. destruct t as [|c [|c' t']]; simpl.
  - split; discriminate.
  - pose proof (upper_char_is c k Hk) as [H1 H2].
    split; intros H; injection H as H; f_equal; auto.
  - split; discriminate.
Qed.

Lemma upper_A t : upper t = "A" ↔ lower t = "a".
Proof. apply (upper_is_letter t 65%N). lia. Qed.
Lemma upper_B t : upper t = "B" ↔ lower t = "b".
Proof. apply (upper_is_letter t 66%N). lia. Qed.
Lemma upper_C t : upper t = "C" ↔ lower t = "c".
Proof. apply (upper_is_letter t 67%N). lia. Qed.

End TextFacts.

(** ** Resolution of the correct letter *)

Example get_correct_letter_ex1 :
  get_correct_letter (Question 1 (Some 1) "p" (PStr "uno") (PStr "dos") (PStr "tres") (PStr " b ")) = "B".
Proof. vm_compute. reflexivity. Qed.

Example get_correct_letter_ex2 :
  get_correct_letter (Question 1 (Some 1) "p" (PStr "uno") (PStr "dos") (PStr "Tres ") (PStr " TRES")) = "C".
Proof. vm_compute. reflexivity. Qed.

Example get_correct_letter_ex3 :
  get_correct_letter (Question 1 (Some 1) "p" (PInt 10) (PInt (-12)) (PStr "Tres ") (PStr "-12")) = "B".
Proof. vm_compute. reflexivity. Qed.

Lemma find_option_matches (corr : string) (q : question) :
  match List.find (option_matches corr)
          [("A", respuesta_a q); ("B", respuesta_b q); ("C", respuesta_c q)] with
  | Some kv => kv.1
  | None => "A"
  end = default "A" (first_text_match truthy corr q).
Proof.
  unfold first_text_match, option_matches, ci_equal. simpl.
  destruct (truthy (respuesta_a q) && _); [reflexivity|].
  destruct (truthy (respuesta_b q) && _); [reflexivity|].
  destruct (truthy (respuesta_c q) && _); reflexivity.
Qed.

Lemma get_correct_letter_with_text (q : question) :
  get_correct_letter q = get_correct_letter_with Text.upper Text.lower Text.strip q.
Proof. reflexivity. Qed.

Section ReferenceFacts.

Variables upper lower strip : string → string.

Lemma find_option_matches_with (corr : string) (q : question) :
  match List.find (option_matches_with lower strip corr)
          [("A", respuesta_a q); ("B", respuesta_b q); ("C", respuesta_c q)] with
  | Some kv => kv.1
  | None => "A"
  end = default "A" (first_text_match_with lower strip truthy corr q).
Proof.
  unfold first_text_match_with, option_matches_with, ci_equal_with. simpl.
  destruct (truthy (respuesta_a q) && _); [reflexivity|].
  destruct (truthy (respuesta_b q) && _); [reflexivity|].
  destruct (truthy (respuesta_c q) && _); reflexivity.
Qed.

Lemma first_text_match_with_letter usable corr q :
  default "A" (first_text_match_with lower strip usable corr q) ∈ ["A"; "B"; "C"].
Proof.
  unfold first_text_match_with.
  destruct (usable (respuesta_a q) && _); [simpl; left|].
  destruct (usable (respuesta_b q) && _); [simpl; right; left|].
  destruct (usable (respuesta_c q) && _); simpl; [right; right; left | left].
Qed.

Lemma letter_key_with_upper (corr : string) :
  letters_fold_alike upper lower strip →
  if bool_decide (upper (strip corr) ∈ ["A"; "B"; "C"])
  then letter_key_with lower strip corr = Some (upper (strip corr))
  else letter_key_with lower strip corr = None.
Proof.
  intros Hfold. unfold letter_key_with, ci_equal_with.
  assert (HA : "A" ∈ ["A"; "B"; "C"]) by left.
  assert (HB : "B" ∈ ["A"; "B"; "C"]) by (right; left).
  assert (HC : "C" ∈ ["A"; "B"; "C"]) by (right; right; left).
  set (t := strip corr).
  destruct (String.eqb_spec (lower t) (lower (strip "A"))) as [Ha | Ha].
  { apply (Hfold "A" t HA) in Ha. rewrite Ha. by rewrite bool_decide_eq_true_2. }
  destruct (String.eqb_spec (lower t) (lower (strip "B"))) as [Hb | Hb].
  { apply (Hfold "B" t HB) in Hb. rewrite Hb. by rewrite bool_decide_eq_true_2. }
  destruct (String.eqb_spec (lower t) (lower (strip "C"))) as [Hc | Hc].
  { apply (Hfold "C" t HC) in Hc. rewrite Hc. by rewrite bool_decide_eq_true_2. }
  rewrite bool_decide_eq_false_2; [done|].
  intros Hin. pose proof Hin as Hin'. rewrite !elem_of_cons in Hin'.
  destruct Hin' as [H | [H | [H | H]]].
  - by apply (Hfold "A" t HA) in H.
  - by apply (Hfold "B" t HB) in H.
  - by apply (Hfold "C" t HC) in H.
  - by apply elem_of_nil in H.
Qed.

End ReferenceFacts.

(** C4, as stated, fails, in two ways.  For the question whose [correcta]
    is the empty text and whose options are the empty text, a blank and "x",
    the algorithm of section 4.3 answers "A" (option A equals [correcta]
    after trimming) while [get_correct_letter] answers "B": its loop passes
    over an option whose value is empty.  For the question whose [correcta]
    is the number 10 and whose option B is the number 10, section 4.3 takes
    [correcta] as literal answer text and answers "B", while
    [get_correct_letter] answers "A": it only resolves a string. *)
Lemma get_correct_letter_differs_from_spec :
  (get_correct_letter q_blank_options = "B" ∧
   spec_correct_letter q_blank_options = "A" ∧
   get_correct_letter q_blank_options ≠ spec_correct_letter q_blank_options) ∧
  (get_correct_letter q_numeric_key = "A" ∧
   spec_correct_letter q_numeric_key = "B" ∧
   get_correct_letter q_numeric_key ≠ spec_correct_letter q_numeric_key).
Proof. repeat split; discriminate. Qed.

(** C4 (amended): whatever [str.upper], [str.lower] and [str.strip] compute,
    provided a text whose upper case is "A", "B" or "C" is one whose lower
    case is that of the letter, [get_correct_letter] is the algorithm of
    section 4.3 with the two guards of the code: a [correcta] that is a
    string and, trimmed and without regard to case, "A", "B" or "C" gives
    that letter; another string gives the first of A, B, C whose option value
    is truthy (present and not empty) and whose text equals [correcta]
    (trimmed, without regard to case), or "A" when there is none; a
    [correcta] that is no string gives "A".  The result is always one of "A",
    "B", "C". *)
Theorem get_correct_letter_reference
    (upper lower strip : string → string) (q : question) :
  letters_fold_alike upper lower strip →
  get_correct_letter_with upper lower strip q =
    guarded_correct_letter_with lower strip q ∧
  get_correct_letter_with upper lower strip q ∈ ["A"; "B"; "C"].
Proof.
  intros Hfold. unfold get_correct_letter_with, guarded_correct_letter_with.
  destruct (correcta q) as [| b | z | corr]; try (split; [reflexivity | left]).
  cbv zeta. pose proof (letter_key_with_upper upper lower strip corr Hfold) as Hkey.
  destruct (bool_decide (upper (strip corr) ∈ ["A"; "B"; "C"])) eqn:Hin.
  - rewrite Hkey. split; [reflexivity|]. by apply bool_decide_eq_true_1 in Hin.
  - rewrite Hkey, find_option_matches_with.
    split; [reflexivity | apply first_text_match_with_letter].
Qed.

(** ** List helpers *)

Lemma filter_sublist {A} (f : A → bool) (l : list A) :
  List.filter f l `sublist_of` l.
Proof.
  induction l as [|x l IH]; simpl.
  - constructor.
  - destruct (f x); by constructor.
Qed.

Lemma elem_of_filter_bool {A} (f : A → bool) (l : list A) (x : A) :
  x ∈ List.filter f l ↔ x ∈ l ∧ f x = true.
Proof. rewrite !list_elem_of_In. apply filter_In. Qed.

Lemma nonempty_forallb {A} (f : A → bool) (l : list A) :
  match l with [] => false | _ => forallb f l end = true ↔
  (∃ x, x ∈ l) ∧ ∀ x, x ∈ l → f x = true.
Proof.
  destruct l as [|y l].
  - split; [discriminate|]. intros [[x Hx] _]. by apply elem_of_nil in Hx.
  - rewrite forallb_forall. split.
    + intros H. split; [exists y; left|]. intros x Hx. by apply H, list_elem_of_In.
    + intros [_ H] x Hx. by apply H, list_elem_of_In.
Qed.

Lemma count_if_all {A} (f : A → bool) (l : list A) :
  (∀ x, x ∈ l → f x = true) → count_if f l = Z.of_nat (length l).
Proof.
  intros H. unfold count_if. rewrite forallb_filter_id; [done|].
  apply forallb_forall. intros x Hx. by apply H, list_elem_of_In.
Qed.

Lemma count_if_le {A} (f : A → bool) (l : list A) :
  0 ≤ count_if f l ≤ Z.of_nat (length l).
Proof. unfold count_if. pose proof (filter_length_le f l). lia. Qed.

(** ** Mode resolution, batches, totals and reset *)

Lemma failed_spec (a : answer) :
  failed a = true ↔ 1 ≤ attempts a ∧ correct a = false.
Proof.
  unfold failed. rewrite andb_true_iff, Z.leb_le, negb_true_iff. done.
Qed.

Lemma failed_record_spec (oa : option answer) :
  failed_record oa = true ↔ ∃ a, oa = Some a ∧ 1 ≤ attempts a ∧ correct a = false.
Proof.
  destruct oa as [a|]; simpl.
  - rewrite failed_spec. split; [eauto|]. by intros (? & [= <-] & ?).
  - split; [discriminate|]. by intros (? & ? & ?).
Qed.

Section ResolverFacts.

Variable bank : list question.

Lemma failed_ids_spec (m : gmap Z answer) (k : Z) :
  k ∈ List.map fst (List.filter (λ na, failed na.2) (map_to_list m)) ↔
  failed_record (m !! k) = true.
Proof.
  rewrite list_elem_of_In, in_map_iff. split.
  - intros ([k' a] & Hk & Hin). simpl in Hk. subst k'.
    apply filter_In in Hin as [Hin Hf]. simpl in Hf.
    apply list_elem_of_In, elem_of_map_to_list in Hin. by rewrite Hin.
  - destruct (m !! k) as [a|] eqn:Hm; [|discriminate]. simpl. intros Hf.
    exists (k, a). split; [done|]. apply filter_In. split; [|done].
    by apply list_elem_of_In, elem_of_map_to_list.
Qed.

Lemma review_mode_filter (ss : session) :
  get_questions_for_mode bank ss "review" =
  Returns (List.filter (λ q, failed_record (answers ss !! n q)) bank).
Proof.
  unfold get_questions_for_mode. simpl. f_equal.
  apply filter_ext. intros q.
  destruct (failed_record (answers ss !! n q)) eqn:Hf.
  - by apply bool_decide_eq_true_2, failed_ids_spec.
  - apply bool_decide_eq_false_2. rewrite failed_ids_spec. by rewrite Hf.
Qed.

(** C6: in review mode the resolver returns the questions of the bank whose
    number has a record with at least one attempt and [correct = false], as
    a subsequence of the bank in its load order; a question whose record is
    correct is left out, one whose record is failed is in, and with no
    failed record the result is the empty list, returned and not raised. *)
Theorem review_mode_questions (ss : session) :
  ∃ qs,
    get_questions_for_mode bank ss "review" = Returns qs ∧
    qs = List.filter (λ q, failed_record (answers ss !! n q)) bank ∧
    qs `sublist_of` bank ∧
    (∀ q, q ∈ qs ↔
          q ∈ bank ∧
          ∃ a, answers ss !! n q = Some a ∧ 1 ≤ attempts a ∧ correct a = false) ∧
    (∀ q, get_correct (answers ss !! n q) = true → q ∉ qs) ∧
    ((∀ q, q ∈ bank → failed_record (answers ss !! n q) = false) → qs = []).
Proof.
  eexists. split; [apply review_mode_filter|]. split; [reflexivity|].
  split; [apply filter_sublist|]. split; [|split].
  - intros q. rewrite elem_of_filter_bool, failed_record_spec. done.
  - intros q Hc Hin. apply elem_of_filter_bool in Hin as [_ Hf].
    apply failed_record_spec in Hf as (a & Ha & _ & Hfalse).
    rewrite Ha in Hc. simpl in Hc. congruence.
  - intros Hnone. induction bank as [|q l IH]; [done|]. simpl.
    rewrite (Hnone q) by left. apply IH. intros q' Hq'. apply Hnone. by right.
Qed.

(** C7: a batch is completed exactly when the bank has a question of that
    batch and every question of the batch has a record with
    [correct = true]; a batch without questions is not completed. *)
Theorem is_lot_completed_iff (ss : session) (k : Z) :
  (is_lot_completed bank ss k = true ↔
   (∃ q, q ∈ bank ∧ lote_id q = Some k) ∧
   (∀ q, q ∈ bank → lote_id q = Some k →
         ∃ a, answers ss !! n q = Some a ∧ correct a = true)) ∧
  ((∀ q, q ∈ bank → lote_id q ≠ Some k) → is_lot_completed bank ss k = false).
Proof.
  assert (Hiff : is_lot_completed bank ss k = true ↔
    (∃ q, q ∈ bank ∧ lote_id q = Some k) ∧
    (∀ q, q ∈ bank → lote_id q = Some k →
          ∃ a, answers ss !! n q = Some a ∧ correct a = true)).
  { unfold is_lot_completed. cbv zeta. rewrite nonempty_forallb.
    assert (Hget : ∀ q, get_correct (answers ss !! n q) = true ↔
                        ∃ a, answers ss !! n q = Some a ∧ correct a = true).
    { intros q. destruct (answers ss !! n q) as [a|]; simpl.
      - split; [eauto|]. by intros (? & [= <-] & ?).
      - split; [discriminate|]. by intros (? & ? & ?). }
    split.
    - intros [[q Hq] Hall]. split.
      + exists q. apply elem_of_filter_bool in Hq as [? Hq].
        by apply bool_decide_eq_true_1 in Hq.
      + intros q' Hin Hl. apply Hget, Hall, elem_of_filter_bool.
        split; [done|]. by apply bool_decide_eq_true_2.
    - intros [(q & Hin & Hl) Hall]. split.
      + exists q. apply elem_of_filter_bool. split; [done|].
        by apply bool_decide_eq_true_2.
      + intros q' Hq'. apply elem_of_filter_bool in Hq' as [? Hq'].
        apply bool_decide_eq_true_1 in Hq'. apply Hget. by apply Hall. }
  split; [exact Hiff|].
  intros Hno. apply not_true_is_false. intros Ht.
  apply Hiff in Ht as [(q & Hin & Hl) _]. by apply (Hno q).
Qed.

End ResolverFacts.

Section FlowFacts.

Variable bank : list question.

(** Every mode resolves: no call of the resolver raises. *)
Lemma get_questions_for_mode_returns (ss : session) (m : string) :
  ∃ qs, get_questions_for_mode bank ss m = Returns qs.
Proof.
  unfold get_questions_for_mode.
  destruct (String.eqb m "full"); [eauto|].
  case_bool_decide as Hm.
  - rewrite !elem_of_cons in Hm.
    destruct Hm as [-> | [-> | [-> | Hm]]]; [simpl; eauto ..|].
    by apply elem_of_nil in Hm.
  - destruct (String.eqb m "review"); eauto.
Qed.

(** A field-wise view of the question flow: it leaves alone whatever the
    clamp of the index and [on_display] leave alone. *)
Lemma question_flow_preserves (P : session → Prop)
    (on_display : question → session → session) (ss : session) :
  (∀ i s, P s → P (set_current_index i s)) →
  (∀ q s, P s → P (on_display q s)) →
  P ss → P (question_flow bank on_display ss).
Proof.
  intros Hidx Hdisp HP. unfold question_flow.
  destruct (get_questions_for_mode bank ss (mode ss)) as [qs|e]; [|done].
  destruct (Z.eqb _ 0); [done|]. cbv zeta.
  destruct (py_index qs _) as [q|]; auto.
Qed.

Lemma rerun_preserves (P : session → Prop) (ss : session) :
  (∀ i s, P s → P (set_current_index i s)) → P ss → P (rerun bank ss).
Proof. intros Hidx HP. unfold rerun. apply question_flow_preserves; auto. Qed.

Lemma rerun_current_index_0 (ss : session) :
  current_index ss = 0 → current_index (rerun bank ss) = 0.
Proof.
  intros H0. unfold rerun, question_flow.
  destruct (get_questions_for_mode bank ss (mode ss)) as [qs|e]; [|done].
  destruct (Z.eqb_spec (Z.of_nat (length qs)) 0) as [|Hne]; [done|]. cbv zeta.
  assert (Hmin : Z.min (current_index ss) (Z.of_nat (length qs) - 1) = 0) by lia.
  rewrite Hmin. by destruct (py_index qs _).
Qed.

(** C8: [reset_results] empties the answers and the locked set, puts the
    index at 0 and clears the feedback, and leaves the mode and the display
    preference as they were; the totals then count no attempted and no
    correct question and no number is locked.  The same holds at the end of
    the run of the script that the reset button causes. *)
Theorem reset_results_clears (ss : session) :
  (answers (reset_results ss) = ∅ ∧
   locked (reset_results ss) = ∅ ∧
   current_index (reset_results ss) = 0 ∧
   last_feedback (reset_results ss) = None ∧
   mode (reset_results ss) = mode ss ∧
   show_correct_between (reset_results ss) = show_correct_between ss ∧
   t_attempted (totals bank (reset_results ss)) = 0 ∧
   t_correct (totals bank (reset_results ss)) = 0 ∧
   ∀ k, k ∉ locked (reset_results ss)) ∧
  (answers (script_run bank ClickReset ss) = ∅ ∧
   locked (script_run bank ClickReset ss) = ∅ ∧
   current_index (script_run bank ClickReset ss) = 0 ∧
   last_feedback (script_run bank ClickReset ss) = None ∧
   mode (script_run bank ClickReset ss) = mode ss ∧
   show_correct_between (script_run bank ClickReset ss) = show_correct_between ss).
Proof.
  split.
  - assert (Hlist : map_to_list (answers (reset_results ss)) = []).
    { simpl. apply map_to_list_empty. }
    unfold totals. rewrite Hlist.
    repeat split. intros k. simpl. apply not_elem_of_empty.
  - unfold script_run. simpl sidebar. cbv zeta.
    repeat split.
    + by apply (rerun_preserves (λ s, answers s = ∅)).
    + by apply (rerun_preserves (λ s, locked s = ∅)).
    + by apply rerun_current_index_0.
    + by apply (rerun_preserves (λ s, last_feedback s = None)).
    + by apply (rerun_preserves (λ s, mode s = mode ss)).
    + by apply (rerun_preserves (λ s, show_correct_between s = show_correct_between ss)).
Qed.

(** C9 (amended): for a mode outside "full", "lote1", "lote2", "lote3",
    "review", the resolver returns the empty list of questions; it does not
    raise. *)
Theorem get_questions_for_mode_unknown (ss : session) (m : string) :
  m ∉ valid_modes → get_questions_for_mode bank ss m = Returns [].
Proof.
  intros Hm. unfold valid_modes in Hm. rewrite !not_elem_of_cons in Hm.
  destruct Hm as (Hfull & H1 & H2 & H3 & Hrev & _).
  unfold get_questions_for_mode.
  destruct (String.eqb_spec m "full"); [done|].
  rewrite bool_decide_eq_false_2.
  - by destruct (String.eqb_spec m "review").
  - rewrite !not_elem_of_cons. repeat split; try done. apply not_elem_of_nil.
Qed.

End FlowFacts.

(** C9, as stated, fails: the mode "exam" is none of the five, and the
    resolver returns the empty list for it instead of raising. *)
Lemma unknown_mode_returns_empty :
  ("exam" ∉ valid_modes) ∧
  get_questions_for_mode [q_blank_options] init_state "exam" = Returns [] ∧
  ¬ ∃ e, get_questions_for_mode [q_blank_options] init_state "exam" = Raises e.
Proof.
  split; [|split].
  - unfold valid_modes. not_in_list.
  - reflexivity.
  - intros [e He]. discriminate He.
Qed.

(** C9 (amended) on the mode "quiz". *)
Lemma get_questions_for_mode_unknown_witness :
  ("quiz" ∉ valid_modes) ∧
  get_questions_for_mode [q_blank_options] init_state "quiz" = Returns [].
Proof.
  assert (H : "quiz" ∉ valid_modes).
  { unfold valid_modes. not_in_list. }
  split; [exact H|].
  exact (get_questions_for_mode_unknown [q_blank_options] init_state "quiz" H).
Defined.

(** ** The submit handler *)

Lemma submit_handler_frame (q : question) (c : string) (ss : session) :
  mode (submit_handler q c ss) = mode ss ∧
  show_correct_between (submit_handler q c ss) = show_correct_between ss ∧
  current_index (submit_handler q c ss) = current_index ss + 1 ∧
  last_feedback (submit_handler q c ss) = None ∧
  ∀ k, k ≠ n q → answers (submit_handler q c ss) !! k = answers ss !! k.
Proof.
  unfold submit_handler. cbv zeta.
  destruct (correct (default _ (answers ss !! n q)));
    [|destruct (String.eqb c (get_correct_letter q))];
    simpl; repeat split; intros k Hk; by rewrite lookup_insert_ne.
Qed.

(** The three branches of the handler, by the record found and the letter. *)
Lemma submit_handler_already_correct (q : question) (c : string) (ss : session) a :
  answers ss !! n q = Some a → correct a = true →
  answers (submit_handler q c ss) =
    <[n q := Answer (attempts a) (correct a) (Some c) (a_lote_id a)]> (answers ss) ∧
  locked (submit_handler q c ss) = locked ss.
Proof. intros Ha Hc. unfold submit_handler. rewrite Ha. simpl. by rewrite Hc. Qed.

Lemma submit_handler_right (q : question) (c : string) (ss : session) :
  get_correct (answers ss !! n q) = false → c = get_correct_letter q →
  answers (submit_handler q c ss) =
    <[n q := Answer (get_attempts (answers ss !! n q) + 1) true (Some c)
               (default (lote_id q) (a_lote_id <$> answers ss !! n q))]> (answers ss) ∧
  locked (submit_handler q c ss) = locked ss.
Proof.
  intros Hc ->. unfold submit_handler.
  destruct (answers ss !! n q) as [a|]; simpl in *; rewrite ?Hc;
    by rewrite String.eqb_refl.
Qed.

Lemma submit_handler_wrong (q : question) (c : string) (ss : session) :
  get_correct (answers ss !! n q) = false → c ≠ get_correct_letter q →
  answers (submit_handler q c ss) =
    <[n q := Answer (get_attempts (answers ss !! n q) + 1) false (Some c)
               (default (lote_id q) (a_lote_id <$> answers ss !! n q))]> (answers ss) ∧
  locked (submit_handler q c ss) = {[n q]} ∪ locked ss.
Proof.
  intros Hc Hne. apply String.eqb_neq in Hne. unfold submit_handler.
  destruct (answers ss !! n q) as [a|]; simpl in *; rewrite ?Hc, Hne; done.
Qed.

Lemma not_yet_correct_get (ss : session) (k : Z) :
  (answers ss !! k = None ∨ ∃ a, answers ss !! k = Some a ∧ correct a = false) ↔
  get_correct (answers ss !! k) = false.
Proof.
  destruct (answers ss !! k) as [a|]; simpl.
  - split; [by intros [|(? & [= <-] & ?)] | eauto].
  - split; [done | by left].
Qed.

(** C1: for a question that is not yet correct (no record, or a record with
    [correct = false]) and not locked, a submission of the letter [c] leaves a
    record with one attempt more (one, when there was none) and
    [selected = c]; when [c] is the resolved letter the record is correct and
    the locked set is as before, so the question is not in it; when it is
    not, the record stays incorrect and the question's number joins the
    locked set; either way the index goes up by one. *)
Theorem submit_answer_not_yet_correct (q : question) (c : string) (ss : session) :
  (answers ss !! n q = None ∨ ∃ a, answers ss !! n q = Some a ∧ correct a = false) →
  n q ∉ locked ss →
  ∃ a',
    answers (submit_answer q c ss) !! n q = Some a' ∧
    attempts a' = get_attempts (answers ss !! n q) + 1 ∧
    selected a' = Some c ∧
    (c = get_correct_letter q →
       correct a' = true ∧
       locked (submit_answer q c ss) = locked ss ∧
       n q ∉ locked (submit_answer q c ss)) ∧
    (c ≠ get_correct_letter q →
       correct a' = false ∧
       locked (submit_answer q c ss) = {[n q]} ∪ locked ss ∧
       n q ∈ locked (submit_answer q c ss)) ∧
    current_index (submit_answer q c ss) = current_index ss + 1.
Proof.
  intros Hnc Hnl. apply not_yet_correct_get in Hnc.
  assert (Hgate : submit_answer q c ss = submit_handler q c ss).
  { unfold submit_answer, responder_disabled. by rewrite bool_decide_eq_false_2. }
  rewrite Hgate.
  destruct (submit_handler_frame q c ss) as (_ & _ & Hidx & _).
  destruct (decide (c = get_correct_letter q)) as [Heq | Hne].
  - destruct (submit_handler_right q c ss Hnc Heq) as [Hans Hlock].
    eexists. rewrite Hans, lookup_insert_eq, Hlock.
    split; [reflexivity|]. simpl. repeat split; try done.
  - destruct (submit_handler_wrong q c ss Hnc Hne) as [Hans Hlock].
    eexists. rewrite Hans, lookup_insert_eq, Hlock.
    split; [reflexivity|]. simpl. repeat split; try done.
    by apply elem_of_union_l, elem_of_singleton.
Qed.

(** C5: for a question whose record is already correct, a further
    submission of any letter leaves [attempts] and [correct] as they are,
    stores the letter in [selected], and leaves the locked set (and every
    other record) untouched. *)
Theorem submit_answer_already_correct
    (q : question) (c : string) (ss : session) (a : answer) :
  answers ss !! n q = Some a → correct a = true →
  ∃ a',
    answers (submit_answer q c ss) !! n q = Some a' ∧
    attempts a' = attempts a ∧
    correct a' = true ∧
    selected a' = Some c ∧
    a_lote_id a' = a_lote_id a ∧
    locked (submit_answer q c ss) = locked ss ∧
    ∀ k, k ≠ n q → answers (submit_answer q c ss) !! k = answers ss !! k.
Proof.
  intros Ha Hc.
  assert (Hgate : submit_answer q c ss = submit_handler q c ss).
  { unfold submit_answer, responder_disabled. rewrite Ha. simpl. rewrite Hc.
    by rewrite andb_false_r. }
  rewrite Hgate.
  destruct (submit_handler_already_correct q c ss a Ha Hc) as [Hans Hlock].
  destruct (submit_handler_frame q c ss) as (_ & _ & _ & _ & Hother).
  eexists. rewrite Hans at 1. rewrite lookup_insert_eq, Hlock.
  split; [reflexivity|]. simpl. repeat split; done.
Qed.

(** ** Runs of the script *)

Section ScriptFacts.

Variable bank : list question.

Lemma sidebar_records (ev : event) (ss : session) :
  answers (sidebar ev ss) = answers ss ∧ locked (sidebar ev ss) = locked ss.
Proof.
  unfold sidebar. destruct ev as [| l | b | | | o |]; simpl; try done.
  by destruct (negb _).
Qed.

Lemma rerun_records_only (P : session → Prop) (ss : session) :
  records_only P → P ss → P (rerun bank ss).
Proof.
  intros HP Hss. apply rerun_preserves; [|done].
  intros i s Hs. by apply (HP s).
Qed.

(** What every run of the script keeps: a property of the records that the
    gated submission keeps (and the reset, when the run is a reset). *)
Lemma script_run_preserves (P : session → Prop) (ev : event) (ss : session) :
  records_only P →
  (∀ q c s, P s → P (submit_answer q c s)) →
  (ev = ClickReset → ∀ s, P s → P (reset_results s)) →
  P ss → P (script_run bank ev ss).
Proof.
  intros HP Hsub Hreset Hss.
  assert (Hside : P (sidebar ev ss)).
  { destruct (sidebar_records ev ss). by apply (HP ss). }
  unfold script_run. cbv zeta.
  destruct ev as [| l | b | | | o |];
    try (apply question_flow_preserves; [intros i s Hs; by apply (HP s) | | done];
         intros q s Hs).
  - done.
  - done.
  - done.
  - apply rerun_records_only; [done|]. by apply Hreset.
  - apply rerun_records_only; [done|]. by apply (HP s).
  - specialize (Hsub q (radio_value o) s Hs). unfold submit_answer in Hsub.
    destruct (responder_disabled q s); [done|]. by apply rerun_records_only.
  - apply rerun_records_only; [done|]. by apply (HP s).
Qed.

Lemma run_events_preserves (P : session → Prop) (evs : list event) (ss : session) :
  records_only P →
  (∀ q c s, P s → P (submit_answer q c s)) →
  (ClickReset ∈ evs → ∀ s, P s → P (reset_results s)) →
  P ss → P (run_events bank evs ss).
Proof.
  intros HP Hsub. revert ss.
  induction evs as [|ev evs IH]; intros ss Hreset Hss; [done|].
  simpl. apply IH.
  - intros Hin. apply Hreset. by right.
  - apply script_run_preserves; try done.
    intros ->. apply Hreset. by left.
Qed.

End ScriptFacts.

(** ** The invariant of the session *)

Lemma session_inv_records_only : records_only session_inv.
Proof.
  intros s s' Ha Hl [Hpos Hiff]. unfold session_inv, attempts_positive, locked_iff_failed.
  rewrite Ha, Hl. done.
Qed.

Lemma session_inv_init : session_inv init_state.
Proof.
  split.
  - intros k a H. simpl in H. by rewrite lookup_empty in H.
  - intros k. simpl. split.
    + intros H. by apply not_elem_of_empty in H.
    + intros (a & H & _). by rewrite lookup_empty in H.
Qed.

Lemma session_inv_reset (ss : session) : session_inv (reset_results ss).
Proof.
  apply (session_inv_records_only init_state); [done | done | apply session_inv_init].
Qed.

Lemma get_attempts_nonneg (ss : session) (k : Z) :
  attempts_positive ss → 0 ≤ get_attempts (answers ss !! k).
Proof.
  intros Hpos. destruct (answers ss !! k) as [a|] eqn:Ha; simpl; [|done].
  specialize (Hpos k a Ha). lia.
Qed.

(** Storing a record at [k] and, when it is a failed one, locking [k]. *)
Lemma session_inv_store (ss : session) (k : Z) (a : answer) (s' : session) :
  session_inv ss →
  answers s' = <[k := a]> (answers ss) →
  1 ≤ attempts a →
  (k ∈ locked s' ↔ correct a = false) →
  (∀ j, j ≠ k → (j ∈ locked s' ↔ j ∈ locked ss)) →
  session_inv s'.
Proof.
  intros [Hpos Hiff] Hans Hatt Hk Hother. split.
  - intros j b. rewrite Hans. destruct (decide (j = k)) as [-> | Hne].
    + rewrite lookup_insert_eq. by intros [= <-].
    + rewrite lookup_insert_ne by done. apply Hpos.
  - intros j. rewrite Hans. destruct (decide (j = k)) as [-> | Hne].
    + rewrite lookup_insert_eq, Hk. split; [eauto|]. by intros (? & [= <-] & _ & ?).
    + rewrite lookup_insert_ne by done. rewrite Hother by done. apply Hiff.
Qed.

Lemma session_inv_submit_answer (q : question) (c : string) (ss : session) :
  session_inv ss → session_inv (submit_answer q c ss).
Proof.
  intros Hinv. pose proof Hinv as [Hpos Hiff].
  unfold submit_answer, responder_disabled.
  destruct (get_correct (answers ss !! n q)) eqn:Hc.
  - (* already correct: the gate is open, the record keeps its counters *)
    rewrite andb_false_r.
    destruct (answers ss !! n q) as [a|] eqn:Ha; [|discriminate]. simpl in Hc.
    destruct (submit_handler_already_correct q c ss a Ha Hc) as [Hans Hlock].
    eapply (session_inv_store ss (n q)); [exact Hinv | exact Hans | | |].
    + simpl. by eapply Hpos.
    + rewrite Hlock. simpl. rewrite Hc. split; [|done].
      intros Hin. apply Hiff in Hin as (b & Hb & _ & Hf). congruence.
    + intros j _. by rewrite Hlock.
  - rewrite andb_true_r. case_bool_decide as Hl; [done|]. 
    pose proof (get_attempts_nonneg ss (n q) Hpos) as Hge.
    destruct (decide (c = get_correct_letter q)) as [Heq | Hne].
    + destruct (submit_handler_right q c ss Hc Heq) as [Hans Hlock].
      eapply (session_inv_store ss (n q)); [exact Hinv | exact Hans | | |].
      * simpl. lia.
      * rewrite Hlock. simpl. split; [done | discriminate].
      * intros j _. by rewrite Hlock.
    + destruct (submit_handler_wrong q c ss Hc Hne) as [Hans Hlock].
      eapply (session_inv_store ss (n q)); [exact Hinv | exact Hans | | |].
      * simpl. lia.
      * rewrite Hlock. simpl. split; [done|]. intros _.
        by apply elem_of_union_l, elem_of_singleton.
      * intros j Hj. rewrite Hlock, elem_of_union, elem_of_singleton.
        split; [intros [Hjk | Hin]; [by destruct Hj | done] | by right].
Qed.

Lemma session_inv_script_run (bank : list question) (ev : event) (ss : session) :
  session_inv ss → session_inv (script_run bank ev ss).
Proof.
  apply script_run_preserves.
  - apply session_inv_records_only.
  - intros q c s. apply session_inv_submit_answer.
  - intros _ s _. apply session_inv_reset.
Qed.

Lemma session_inv_run_events (bank : list question) (evs : list event) :
  session_inv (run_events bank evs init_state).
Proof.
  apply run_events_preserves.
  - apply session_inv_records_only.
  - intros q c s. apply session_inv_submit_answer.
  - intros _ s _. apply session_inv_reset.
  - apply session_inv_init.
Qed.

(** C2: in every state that a sequence of runs of the script reaches from
    the initial one, a number is locked exactly when it has a record with at
    least one attempt and [correct = false]; and each run of the script
    (submission, navigation, change of mode, reset), as well as each of the
    operations on its own, keeps that equivalence together with the fact that
    stored records have at least one attempt. *)
Theorem locked_iff_failed_invariant (bank : list question) :
  (∀ evs k,
     k ∈ locked (run_events bank evs init_state) ↔
     ∃ a, answers (run_events bank evs init_state) !! k = Some a ∧
          1 ≤ attempts a ∧ correct a = false) ∧
  (∀ ev ss, session_inv ss → session_inv (script_run bank ev ss)) ∧
  (∀ q c ss, session_inv ss → session_inv (submit_answer q c ss)) ∧
  (∀ ss, session_inv ss →
         session_inv (next_question ss) ∧
         session_inv (prev_question ss) ∧
         session_inv (reset_results ss) ∧
         ∀ l, session_inv (sidebar (SelectMode l) ss)).
Proof.
  split; [|split; [|split]].
  - intros evs. apply (session_inv_run_events bank evs).
  - intros ev ss. apply session_inv_script_run.
  - intros q c ss. apply session_inv_submit_answer.
  - intros ss Hinv. split; [|split; [|split]].
    + by apply (session_inv_records_only ss).
    + by apply (session_inv_records_only ss).
    + apply session_inv_reset.
    + intros l. destruct (sidebar_records (SelectMode l) ss).
      by apply (session_inv_records_only ss).
Qed.

(** C10: in every state that a sequence of runs of the script reaches from
    the initial one, each stored record has at least one attempt; so the
    count of attempted questions is the number of stored records and the
    count of wrong ones is not negative. *)
Theorem stored_records_attempted (bank : list question) (evs : list event) :
  (∀ k a, answers (run_events bank evs init_state) !! k = Some a → 1 ≤ attempts a) ∧
  t_attempted (totals bank (run_events bank evs init_state)) =
    Z.of_nat (size (answers (run_events bank evs init_state))) ∧
  0 ≤ t_wrong (totals bank (run_events bank evs init_state)).
Proof.
  destruct (session_inv_run_events bank evs) as [Hpos _].
  set (ss := run_events bank evs init_state) in *.
  assert (Hatt : t_attempted (totals bank ss) = Z.of_nat (size (answers ss))).
  { unfold totals. simpl. rewrite count_if_all, length_map_to_list; [done|].
    intros [k a] Hin. apply elem_of_map_to_list in Hin. simpl.
    apply Z.leb_le. by eapply Hpos. }
  split; [exact Hpos|]. split; [exact Hatt|].
  assert (Hw : t_wrong (totals bank ss) = t_attempted (totals bank ss) - t_correct (totals bank ss))
    by reflexivity.
  rewrite Hw, Hatt. unfold totals. simpl.
  pose proof (count_if_le (λ na : Z * answer, correct na.2) (map_to_list (answers ss))) as Hle.
  rewrite length_map_to_list in Hle. lia.
Qed.

(** ** Locking *)

Lemma stuck_records_only (k : Z) (oa : option answer) : records_only (stuck k oa).
Proof. intros s s' Ha Hl [? ?]. unfold stuck. by rewrite Ha, Hl. Qed.

Lemma submit_handler_locked_mono (q : question) (c : string) (s : session) (k : Z) :
  k ∈ locked s → k ∈ locked (submit_handler q c s).
Proof.
  intros Hk. unfold submit_handler. cbv zeta.
  destruct (correct (default _ (answers s !! n q)));
    [|destruct (String.eqb c (get_correct_letter q))]; simpl; try done.
  by apply elem_of_union_r.
Qed.

Lemma stuck_rejects (k : Z) (oa : option answer) (q : question) (c : string) (s : session) :
  get_correct oa = false → stuck k oa s → n q = k → submit_answer q c s = s.
Proof.
  intros Hoa [Hl Ha] Hq. unfold submit_answer, responder_disabled.
  rewrite Hq, Ha, Hoa. by rewrite bool_decide_eq_true_2.
Qed.

Lemma stuck_submit_answer (k : Z) (oa : option answer) (q : question) (c : string)
    (s : session) :
  get_correct oa = false → stuck k oa s → stuck k oa (submit_answer q c s).
Proof.
  intros Hoa Hs. destruct (decide (n q = k)) as [Hq | Hq].
  - by rewrite (stuck_rejects k oa q c s).
  - unfold submit_answer. destruct (responder_disabled q s); [done|].
    destruct Hs as [Hl Ha]. split.
    + by apply submit_handler_locked_mono.
    + destruct (submit_handler_frame q c s) as (_ & _ & _ & _ & Hother).
      rewrite Hother; done.
Qed.

(** C3: after a submission that is evaluated as incorrect, the question's
    number is locked; and whatever runs of the script follow, as long as none
    is a reset, it stays locked, its record stays as that submission left it,
    and a submission for that number is not accepted: it changes nothing in
    the session.  A reset unlocks it. *)
Theorem locked_until_reset
    (bank : list question) (q : question) (c : string) (ss : session)
    (evs : list event) :
  (answers ss !! n q = None ∨ ∃ a, answers ss !! n q = Some a ∧ correct a = false) →
  c ≠ get_correct_letter q →
  ClickReset ∉ evs →
  n q ∈ locked (submit_answer q c ss) ∧
  get_correct (answers (submit_answer q c ss) !! n q) = false ∧
  n q ∈ locked (run_events bank evs (submit_answer q c ss)) ∧
  answers (run_events bank evs (submit_answer q c ss)) !! n q =
    answers (submit_answer q c ss) !! n q ∧
  (∀ q' c', n q' = n q →
     submit_answer q' c' (run_events bank evs (submit_answer q c ss)) =
     run_events bank evs (submit_answer q c ss)) ∧
  n q ∉ locked (reset_results (run_events bank evs (submit_answer q c ss))).
Proof.
  intros Hnc Hne Hnr. apply not_yet_correct_get in Hnc.
  set (s1 := submit_answer q c ss).
  assert (Hc1 : get_correct (answers s1 !! n q) = false).
  { unfold s1, submit_answer. destruct (responder_disabled q ss); [done|].
    destruct (submit_handler_wrong q c ss Hnc Hne) as [-> _].
    by rewrite lookup_insert_eq. }
  assert (Hl1 : n q ∈ locked s1).
  { unfold s1, submit_answer, responder_disabled. rewrite Hnc, andb_true_r.
    case_bool_decide as Hl; [done|].
    destruct (submit_handler_wrong q c ss Hnc Hne) as [_ ->].
    by apply elem_of_union_l, elem_of_singleton. }
  assert (Hstuck : stuck (n q) (answers s1 !! n q) (run_events bank evs s1)).
  { apply run_events_preserves.
    - apply stuck_records_only.
    - intros q' c' s. by apply stuck_submit_answer.
    - done.
    - by split. }
  split; [done|]. split; [done|]. split; [apply Hstuck|]. split; [apply Hstuck|].
  split.
  - intros q' c' Hq'. by eapply stuck_rejects.
  - simpl. apply not_elem_of_empty.
Qed.

(** ** The scenario, run *)

Example scenario_first_answer :
  totals scenario_bank (run_events scenario_bank [ClickResponder OptA] init_state)
  = Totals 1 1 0 3 0.
Proof. vm_compute. reflexivity. Qed.

Example scenario_totals : totals scenario_bank scenario_state = Totals 2 1 1 3 0.
Proof. vm_compute. reflexivity. Qed.

Example scenario_locked : 2 ∈ locked scenario_state.
Proof. vm_compute. reflexivity. Qed.

Example scenario_review :
  get_questions_for_mode scenario_bank scenario_state "review" = Returns [scenario_q2].
Proof. vm_compute. reflexivity. Qed.

Example scenario_batch : is_lot_completed scenario_bank scenario_state 1 = false.
Proof. vm_compute. reflexivity. Qed.

(** Question 2 is on display again after "Anterior"; Responder is disabled. *)
Example scenario_resubmit :
  answers (run_events scenario_bank [ClickAnterior; ClickResponder OptB] scenario_state)
  = answers scenario_state.
Proof. vm_compute. reflexivity. Qed.

Example scenario_reset :
  totals scenario_bank (script_run scenario_bank ClickReset scenario_state)
  = Totals 0 0 0 3 0.
Proof. vm_compute. reflexivity. Qed.

(** ** Instances of the conditional theorems *)

(** C1 on the scenario: question 2, not yet answered, answered with A. *)
Lemma submit_answer_not_yet_correct_witness :
  (answers init_state !! n scenario_q2 = None ∨
   ∃ a, answers init_state !! n scenario_q2 = Some a ∧ correct a = false) ∧
  (n scenario_q2 ∉ locked init_state) ∧
  ∃ a',
    answers (submit_answer scenario_q2 "A" init_state) !! n scenario_q2 = Some a' ∧
    attempts a' = get_attempts (answers init_state !! n scenario_q2) + 1 ∧
    selected a' = Some "A" ∧
    ("A" = get_correct_letter scenario_q2 →
       correct a' = true ∧
       locked (submit_answer scenario_q2 "A" init_state) = locked init_state ∧
       n scenario_q2 ∉ locked (submit_answer scenario_q2 "A" init_state)) ∧
    ("A" ≠ get_correct_letter scenario_q2 →
       correct a' = false ∧
       locked (submit_answer scenario_q2 "A" init_state) =
         {[n scenario_q2]} ∪ locked init_state ∧
       n scenario_q2 ∈ locked (submit_answer scenario_q2 "A" init_state)) ∧
    current_index (submit_answer scenario_q2 "A" init_state) =
      current_index init_state + 1.
Proof.
  assert (H1 : answers init_state !! n scenario_q2 = None ∨
               ∃ a, answers init_state !! n scenario_q2 = Some a ∧ correct a = false)
    by (left; reflexivity).
  assert (H2 : n scenario_q2 ∉ locked init_state)
    by (simpl; apply not_elem_of_empty).
  split; [exact H1|]. split; [exact H2|].
  exact (submit_answer_not_yet_correct scenario_q2 "A" init_state H1 H2).
Defined.

(** C5 on the scenario: question 1 answered with A (right), then with C. *)
Lemma submit_answer_already_correct_witness :
  answers (submit_handler scenario_q1 "A" init_state) !! n scenario_q1
    = Some (Answer 1 true (Some "A") (Some 1)) ∧
  correct (Answer 1 true (Some "A") (Some 1)) = true ∧
  ∃ a',
    answers (submit_answer scenario_q1 "C" (submit_handler scenario_q1 "A" init_state))
      !! n scenario_q1 = Some a' ∧
    attempts a' = 1 ∧
    correct a' = true ∧
    selected a' = Some "C" ∧
    a_lote_id a' = Some 1 ∧
    locked (submit_answer scenario_q1 "C" (submit_handler scenario_q1 "A" init_state))
      = locked (submit_handler scenario_q1 "A" init_state) ∧
    ∀ k, k ≠ n scenario_q1 →
      answers (submit_answer scenario_q1 "C" (submit_handler scenario_q1 "A" init_state)) !! k
      = answers (submit_handler scenario_q1 "A" init_state) !! k.
Proof.
  assert (H1 : answers (submit_handler scenario_q1 "A" init_state) !! n scenario_q1
               = Some (Answer 1 true (Some "A") (Some 1))) by reflexivity.
  assert (H2 : correct (Answer 1 true (Some "A") (Some 1)) = true) by reflexivity.
  split; [exact H1|]. split; [exact H2|].
  exact (submit_answer_already_correct scenario_q1 "C"
           (submit_handler scenario_q1 "A" init_state) _ H1 H2).
Defined.

(** C3 on the scenario: question 2 answered with A, then Anterior, a press
    of Responder and Siguiente. *)
Lemma locked_until_reset_witness :
  (answers init_state !! n scenario_q2 = None ∨
   ∃ a, answers init_state !! n scenario_q2 = Some a ∧ correct a = false) ∧
  "A" ≠ get_correct_letter scenario_q2 ∧
  (ClickReset ∉ [ClickAnterior; ClickResponder OptB; ClickSiguiente]) ∧
  n scenario_q2 ∈ locked (submit_answer scenario_q2 "A" init_state) ∧
  get_correct (answers (submit_answer scenario_q2 "A" init_state) !! n scenario_q2) = false ∧
  n scenario_q2 ∈ locked
    (run_events scenario_bank [ClickAnterior; ClickResponder OptB; ClickSiguiente]
       (submit_answer scenario_q2 "A" init_state)) ∧
  answers
    (run_events scenario_bank [ClickAnterior; ClickResponder OptB; ClickSiguiente]
       (submit_answer scenario_q2 "A" init_state)) !! n scenario_q2
  = answers (submit_answer scenario_q2 "A" init_state) !! n scenario_q2 ∧
  (∀ q' c', n q' = n scenario_q2 →
     submit_answer q' c'
       (run_events scenario_bank [ClickAnterior; ClickResponder OptB; ClickSiguiente]
          (submit_answer scenario_q2 "A" init_state)) =
     run_events scenario_bank [ClickAnterior; ClickResponder OptB; ClickSiguiente]
       (submit_answer scenario_q2 "A" init_state)) ∧
  n scenario_q2 ∉ locked
    (reset_results
       (run_events scenario_bank [ClickAnterior; ClickResponder OptB; ClickSiguiente]
          (submit_answer scenario_q2 "A" init_state))).
Proof.
  assert (H1 : answers init_state !! n scenario_q2 = None ∨
               ∃ a, answers init_state !! n scenario_q2 = Some a ∧ correct a = false)
    by (left; reflexivity).
  assert (H2 : "A" ≠ get_correct_letter scenario_q2) by discriminate.
  assert (H3 : ClickReset ∉ [ClickAnterior; ClickResponder OptB; ClickSiguiente]).
  { not_in_list. }
  split; [exact H1|]. split; [exact H2|]. split; [exact H3|].
  exact (locked_until_reset scenario_bank scenario_q2 "A" init_state
           [ClickAnterior; ClickResponder OptB; ClickSiguiente] H1 H2 H3).
Defined.

(** ** Further properties: the flattened bank *)

Lemma with_lote_id_twice (l l' : option Z) (q : question) :
  with_lote_id l (with_lote_id l' q) = with_lote_id l q.
Proof. reflexivity. Qed.

Lemma map_with_lote_id_twice (l l' : option Z) (qs : list question) :
  List.map (with_lote_id l) (List.map (with_lote_id l') qs) =
  List.map (with_lote_id l) qs.
Proof. rewrite List.map_map. apply List.map_ext. intros q. apply with_lote_id_twice. Qed.

Lemma elem_of_flat_map {A B} (f : A → list B) (l : list A) (y : B) :
  y ∈ flat_map f l ↔ ∃ x, x ∈ l ∧ y ∈ f x.
Proof.
  rewrite list_elem_of_In, in_flat_map. split.
  - intros (x & Hx & Hy). exists x. by rewrite !list_elem_of_In.
  - intros (x & Hx & Hy). exists x. by rewrite <- !list_elem_of_In.
Qed.

Lemma elem_of_map_bool {A B} (f : A → B) (l : list A) (y : B) :
  y ∈ List.map f l ↔ ∃ x, y = f x ∧ x ∈ l.
Proof.
  rewrite list_elem_of_In, in_map_iff. split.
  - intros (x & Hx & Hin). exists x. by rewrite list_elem_of_In.
  - intros (x & Hx & Hin). exists x. by rewrite <- list_elem_of_In.
Qed.

(** X1: the flattened bank is the concatenation of the batches' questions,
    in the order of the document, each question carrying the identifier of its
    batch in place of any [lote_id] of its own; nothing else of a question
    changes and none is lost or added. *)
Theorem flatten_questions_tags_batches (bank : bank_t) :
  List.map (with_lote_id None) (flatten_questions bank) =
    List.map (with_lote_id None)
      (flat_map (λ l, default [] (preguntas l)) (default [] (lotes bank))) ∧
  length (flatten_questions bank) =
    length (flat_map (λ l, default [] (preguntas l)) (default [] (lotes bank))) ∧
  ∀ q, q ∈ flatten_questions bank ↔
       ∃ l raw, l ∈ default [] (lotes bank) ∧ raw ∈ default [] (preguntas l) ∧
                q = with_lote_id (l_lote_id l) raw.
Proof.
  unfold flatten_questions. generalize (default [] (lotes bank)) as ls. intros ls.
  split; [|split].
  - induction ls as [|l ls IH]; [done|]. simpl.
    rewrite !List.map_app, IH. by rewrite map_with_lote_id_twice.
  - induction ls as [|l ls IH]; [done|]. simpl.
    rewrite !length_app, IH. by rewrite List.length_map.
  - intros q. rewrite elem_of_flat_map. split.
    + intros (l & Hl & Hq). apply elem_of_map_bool in Hq as (raw & -> & Hraw). eauto.
    + intros (l & raw & Hl & Hraw & ->). exists l. split; [done|].
      apply elem_of_map_bool. eauto.
Qed.

(** X2: a document without the key "lotes" flattens to the empty bank, and
    a batch without the key "preguntas" (or with no question) contributes
    nothing, wherever it stands. *)
Theorem flatten_questions_missing_keys (k : option Z) (before after : list lote) :
  flatten_questions (Bank None) = [] ∧
  flatten_questions (Bank (Some (before ++ Lote k None :: after)%list)) =
    flatten_questions (Bank (Some (before ++ after)%list)) ∧
  flatten_questions (Bank (Some (before ++ Lote k (Some []) :: after)%list)) =
    flatten_questions (Bank (Some (before ++ after)%list)).
Proof.
  unfold flatten_questions. simpl. rewrite !flat_map_app. done.
Qed.

(** ** Further properties: the resolver *)

Lemma batch_mode_filter (bank : list question) (ss : session) :
  get_questions_for_mode bank ss "lote1" =
    Returns (List.filter (λ q, bool_decide (lote_id q = Some 1)) bank) ∧
  get_questions_for_mode bank ss "lote2" =
    Returns (List.filter (λ q, bool_decide (lote_id q = Some 2)) bank) ∧
  get_questions_for_mode bank ss "lote3" =
    Returns (List.filter (λ q, bool_decide (lote_id q = Some 3)) bank).
Proof. repeat split. Qed.

Lemma batch_mode_cases (bank : list question) (ss : session) (m : string) (k : Z) :
  (m, k) ∈ [("lote1", 1); ("lote2", 2); ("lote3", 3)] →
  get_questions_for_mode bank ss m =
    Returns (List.filter (λ q, bool_decide (lote_id q = Some k)) bank).
Proof.
  destruct (batch_mode_filter bank ss) as (H1 & H2 & H3).
  rewrite !elem_of_cons. intros [[= -> ->] | [[= -> ->] | [[= -> ->] | H]]]; try done.
  by apply elem_of_nil in H.
Qed.

Lemma filter_batch_of_lote (k : Z) (l : option Z) (qs : list question) :
  List.filter (λ q, bool_decide (lote_id q = Some k)) (List.map (with_lote_id l) qs) =
  if bool_decide (l = Some k) then List.map (with_lote_id l) qs else [].
Proof.
  induction qs as [|q qs IH]; simpl.
  - by destruct (bool_decide (l = Some k)).
  - rewrite IH. by destruct (bool_decide (l = Some k)).
Qed.

(** X3: on a flattened bank, the mode of batch [k] (1, 2 or 3) lists exactly
    the questions of the batches of the document whose identifier is [k], in
    the order of the document; questions that carried another [lote_id] of
    their own before flattening are classified by their batch. *)
Theorem batch_mode_of_flattened
    (ls : list lote) (ss : session) (m : string) (k : Z) :
  (m, k) ∈ [("lote1", 1); ("lote2", 2); ("lote3", 3)] →
  get_questions_for_mode (flatten_questions (Bank (Some ls))) ss m =
  Returns (flatten_questions
             (Bank (Some (List.filter (λ l, bool_decide (l_lote_id l = Some k)) ls)))).
Proof.
  intros Hm. rewrite (batch_mode_cases _ ss m k Hm). f_equal.
  unfold flatten_questions. simpl.
  induction ls as [|l ls IH]; [done|]. simpl.
  rewrite List.filter_app, IH, filter_batch_of_lote.
  by destruct (bool_decide (l_lote_id l = Some k)).
Qed.

Lemma batch_mode_of_flattened_witness :
  (("lote2", 2) ∈ [("lote1", 1); ("lote2", 2); ("lote3", 3)]) ∧
  get_questions_for_mode
    (flatten_questions
       (Bank (Some [Lote (Some 1) (Some [scenario_q1]);
                    Lote (Some 2) (Some [scenario_q2; scenario_q3])])))
    init_state "lote2" =
  Returns (flatten_questions
             (Bank (Some (List.filter (λ l, bool_decide (l_lote_id l = Some 2))
                            [Lote (Some 1) (Some [scenario_q1]);
                             Lote (Some 2) (Some [scenario_q2; scenario_q3])])))).
Proof.
  assert (H : ("lote2", 2) ∈ [("lote1", 1); ("lote2", 2); ("lote3", 3)])
    by (right; left).
  split; [exact H|].
  exact (batch_mode_of_flattened _ init_state "lote2" 2 H).
Defined.

Lemma get_questions_for_mode_sublist (bank : list question) (ss : session) (m : string) :
  ∃ qs, get_questions_for_mode bank ss m = Returns qs ∧ qs `sublist_of` bank.
Proof.
  unfold get_questions_for_mode.
  destruct (String.eqb m "full"); [by eexists|].
  case_bool_decide as Hm.
  - rewrite !elem_of_cons in Hm.
    destruct Hm as [-> | [-> | [-> | Hm]]];
      [simpl; eexists; split; [reflexivity | apply filter_sublist] ..|].
    by apply elem_of_nil in Hm.
  - destruct (String.eqb m "review"); eexists; split; try reflexivity.
    + apply filter_sublist.
    + apply sublist_nil_l.
Qed.

(** X4: for every mode string and every session the resolver returns (it
    never raises, the conversion of the batch number cannot fail) and what it
    returns is a subsequence of the bank in the bank's order; only the review
    mode looks at the session. *)
Theorem get_questions_for_mode_total (bank : list question) (ss : session) (m : string) :
  (∃ qs, get_questions_for_mode bank ss m = Returns qs ∧
         qs `sublist_of` bank ∧ ∀ q, q ∈ qs → q ∈ bank) ∧
  (m ≠ "review" → ∀ ss', get_questions_for_mode bank ss' m = get_questions_for_mode bank ss m).
Proof.
  split.
  - destruct (get_questions_for_mode_sublist bank ss m) as (qs & Hqs & Hsub).
    exists qs. split; [done|]. split; [done|].
    intros q Hq. by eapply elem_of_sublist.
  - intros Hm ss'. unfold get_questions_for_mode.
    destruct (String.eqb m "full"); [done|].
    case_bool_decide; [done|].
    by destruct (String.eqb_spec m "review").
Qed.

(** X5: a batch (1, 2 or 3) is completed exactly when the list of its mode
    is not empty and every question in that list has a record with
    [correct = true]: the badge of a batch and the list the user is asked
    agree. *)
Theorem is_lot_completed_batch_mode
    (bank : list question) (ss : session) (m : string) (k : Z) :
  (m, k) ∈ [("lote1", 1); ("lote2", 2); ("lote3", 3)] →
  ∃ qs, get_questions_for_mode bank ss m = Returns qs ∧
        (is_lot_completed bank ss k = true ↔
         qs ≠ [] ∧ ∀ q, q ∈ qs → get_correct (answers ss !! n q) = true).
Proof.
  intros Hm. eexists. split; [by apply batch_mode_cases|].
  unfold is_lot_completed. cbv zeta. rewrite nonempty_forallb.
  split; intros [Hne Hall]; (split; [|done]).
  - destruct Hne as [q Hq]. intros Heq. rewrite Heq in Hq. by apply elem_of_nil in Hq.
  - destruct (List.filter _ bank) as [|q qs]; [done|]. exists q. left.
Qed.

Lemma is_lot_completed_batch_mode_witness :
  (("lote1", 1) ∈ [("lote1", 1); ("lote2", 2); ("lote3", 3)]) ∧
  ∃ qs, get_questions_for_mode scenario_bank scenario_state "lote1" = Returns qs ∧
        (is_lot_completed scenario_bank scenario_state 1 = true ↔
         qs ≠ [] ∧ ∀ q, q ∈ qs → get_correct (answers scenario_state !! n q) = true).
Proof.
  assert (H : ("lote1", 1) ∈ [("lote1", 1); ("lote2", 2); ("lote3", 3)]) by left.
  split; [exact H|].
  exact (is_lot_completed_batch_mode scenario_bank scenario_state "lote1" 1 H).
Defined.

(** ** Further properties: what the session holds *)

Lemma py_index_elem_of {A} (l : list A) (i : Z) (x : A) :
  py_index l i = Some x → x ∈ l.
Proof.
  unfold py_index. intros H.
  destruct (Z.ltb i 0); [destruct (Z.ltb _ 0); [done|]|];
    by eapply list_elem_of_lookup_2.
Qed.

Section BankFacts.

Variable bank : list question.

Lemma question_flow_on_bank (P : session → Prop)
    (on_display : question → session → session) (ss : session) :
  (∀ i s, P s → P (set_current_index i s)) →
  (∀ q s, q ∈ bank → P s → P (on_display q s)) →
  P ss → P (question_flow bank on_display ss).
Proof.
  intros Hidx Hdisp HP. unfold question_flow.
  destruct (get_questions_for_mode_sublist bank ss (mode ss)) as (qs & -> & Hsub).
  destruct (Z.eqb _ 0); [done|]. cbv zeta.
  destruct (py_index qs _) as [q|] eqn:Hq; [|auto].
  apply Hdisp; [|auto].
  apply py_index_elem_of in Hq. by eapply elem_of_sublist.
Qed.

(** As [script_run_preserves], knowing that the question answered is one of
    the bank and the letter one of the radio. *)
Lemma script_run_preserves_on_bank (P : session → Prop) (ev : event) (ss : session) :
  records_only P →
  (∀ q o s, q ∈ bank → P s → P (submit_answer q (radio_value o) s)) →
  (ev = ClickReset → ∀ s, P s → P (reset_results s)) →
  P ss → P (script_run bank ev ss).
Proof.
  intros HP Hsub Hreset Hss.
  assert (Hside : P (sidebar ev ss)).
  { destruct (sidebar_records ev ss). by apply (HP ss). }
  unfold script_run. cbv zeta.
  destruct ev as [| l | b | | | o |];
    try (apply question_flow_on_bank; [intros i s Hs; by apply (HP s) | | done];
         intros q s Hq Hs); try done.
  - apply rerun_records_only; [done|]. by apply Hreset.
  - apply rerun_records_only; [done|]. by apply (HP s).
  - specialize (Hsub q o s Hq Hs). unfold submit_answer in Hsub.
    destruct (responder_disabled q s); [done|]. by apply rerun_records_only.
  - apply rerun_records_only; [done|]. by apply (HP s).
Qed.

Lemma run_events_preserves_on_bank (P : session → Prop) (evs : list event) (ss : session) :
  records_only P →
  (∀ q o s, q ∈ bank → P s → P (submit_answer q (radio_value o) s)) →
  (ClickReset ∈ evs → ∀ s, P s → P (reset_results s)) →
  P ss → P (run_events bank evs ss).
Proof.
  intros HP Hsub. revert ss.
  induction evs as [|ev evs IH]; intros ss Hreset Hss; [done|].
  simpl. apply IH.
  - intros Hin. apply Hreset. by right.
  - apply script_run_preserves_on_bank; try done.
    intros ->. apply Hreset. by left.
Qed.

Lemma session_wf_records_only : records_only (session_wf bank).
Proof.
  intros s s' Ha Hl [Hinv Hwf]. split.
  - by apply (session_inv_records_only s).
  - unfold records_wf. by rewrite Ha.
Qed.

Lemma records_wf_insert (ss s' : session) (k : Z) (a : answer) :
  records_wf bank ss → answers s' = <[k := a]> (answers ss) →
  record_wf bank k a → records_wf bank s'.
Proof.
  intros Hwf Hans Ha j b. rewrite Hans. destruct (decide (j = k)) as [-> | Hne].
  - rewrite lookup_insert_eq. by intros [= <-].
  - rewrite lookup_insert_ne by done. apply Hwf.
Qed.

Lemma session_wf_submit_answer (q : question) (o : radio_option) (ss : session) :
  q ∈ bank → session_wf bank ss → session_wf bank (submit_answer q (radio_value o) ss).
Proof.
  intros Hq [Hinv Hwf]. split; [by apply session_inv_submit_answer|].
  unfold submit_answer. destruct (responder_disabled q ss) eqn:Hd; [done|].
  destruct (get_correct (answers ss !! n q)) eqn:Hc.
  - destruct (answers ss !! n q) as [a|] eqn:Ha; [|discriminate]. simpl in Hc.
    destruct (submit_handler_already_correct q (radio_value o) ss a Ha Hc) as [Hans _].
    eapply records_wf_insert; [exact Hwf | exact Hans |].
    destruct (Hwf _ _ Ha) as (Hatt & _ & Hbank). split; [done|]. split; [|done].
    by exists o.
  - assert (Hnone : answers ss !! n q = None).
    { destruct (answers ss !! n q) as [a|] eqn:Ha; [|done]. simpl in Hc.
      destruct (Hwf _ _ Ha) as (Hatt & _).
      unfold responder_disabled in Hd. rewrite Ha in Hd. simpl in Hd.
      rewrite Hc, andb_true_r in Hd. apply bool_decide_eq_false_1 in Hd.
      destruct Hd. apply Hinv. exists a. split; [done|]. split; [lia | done]. }
    assert (Hrec : ∀ b, record_wf bank (n q)
               (Answer (get_attempts (answers ss !! n q) + 1) b (Some (radio_value o))
                  (default (lote_id q) (a_lote_id <$> answers ss !! n q)))).
    { intros b. rewrite Hnone. split; [done|]. split; [by exists o|]. by exists q. }
    destruct (decide (radio_value o = get_correct_letter q)) as [Heq | Hne].
    + destruct (submit_handler_right q _ ss Hc Heq) as [Hans _].
      by eapply records_wf_insert.
    + destruct (submit_handler_wrong q _ ss Hc Hne) as [Hans _].
      by eapply records_wf_insert.
Qed.

Lemma session_wf_init : session_wf bank init_state.
Proof.
  split; [apply session_inv_init|]. intros k a H. simpl in H.
  by rewrite lookup_empty in H.
Qed.

Lemma session_wf_run_events (evs : list event) :
  session_wf bank (run_events bank evs init_state).
Proof.
  apply run_events_preserves_on_bank.
  - apply session_wf_records_only.
  - intros q o s. apply session_wf_submit_answer.
  - intros _ s _. apply (session_wf_records_only init_state); [done | done |].
    apply session_wf_init.
  - apply session_wf_init.
Qed.

End BankFacts.

(** X6: in every state that runs of the script reach from the initial one,
    a stored record has exactly one attempt (a question is evaluated at most
    once between resets), its selection is one of the letters of the radio,
    and its number and batch are those of a question of the bank. *)
Theorem stored_record_shape
    (bank : list question) (evs : list event) (k : Z) (a : answer) :
  answers (run_events bank evs init_state) !! k = Some a →
  attempts a = 1 ∧
  (selected a = Some "A" ∨ selected a = Some "B" ∨ selected a = Some "C") ∧
  ∃ q, q ∈ bank ∧ n q = k ∧ a_lote_id a = lote_id q.
Proof.
  intros Ha. destruct (session_wf_run_events bank evs) as [_ Hwf].
  destruct (Hwf k a Ha) as (Hatt & [o Ho] & Hq). split; [done|]. split; [|done].
  destruct o; simpl in Ho; auto.
Qed.

Lemma stored_record_shape_witness :
  answers (run_events scenario_bank [ClickResponder OptA; ClickResponder OptA] init_state)
    !! 2 = Some (Answer 1 false (Some "A") (Some 1)) ∧
  attempts (Answer 1 false (Some "A") (Some 1)) = 1 ∧
  (selected (Answer 1 false (Some "A") (Some 1)) = Some "A" ∨
   selected (Answer 1 false (Some "A") (Some 1)) = Some "B" ∨
   selected (Answer 1 false (Some "A") (Some 1)) = Some "C") ∧
  ∃ q, q ∈ scenario_bank ∧ n q = 2 ∧
       a_lote_id (Answer 1 false (Some "A") (Some 1)) = lote_id q.
Proof.
  assert (H : answers
                (run_events scenario_bank [ClickResponder OptA; ClickResponder OptA]
                   init_state) !! 2 = Some (Answer 1 false (Some "A") (Some 1)))
    by reflexivity.
  split; [exact H|].
  exact (stored_record_shape scenario_bank [ClickResponder OptA; ClickResponder OptA]
           2 _ H).
Defined.

(** ** Further properties: the totals *)

Lemma keys_filter_NoDup (f : Z * answer → bool) (m : gmap Z answer) :
  NoDup (List.map fst (List.filter f (map_to_list m))).
Proof.
  apply (sublist_NoDup _ ((map_to_list m).*1)); [apply NoDup_fst_map_to_list|].
  apply (fmap_sublist fst). apply filter_sublist.
Qed.

Lemma count_if_split {A} (f : A → bool) (l : list A) :
  count_if f l + count_if (λ x, negb (f x)) l = Z.of_nat (length l).
Proof. unfold count_if. pose proof (filter_length f l). lia. Qed.

Lemma count_if_ext_in {A} (f g : A → bool) (l : list A) :
  (∀ x, x ∈ l → f x = g x) → count_if f l = count_if g l.
Proof.
  intros H. unfold count_if. f_equal. f_equal. apply filter_ext_in.
  intros x Hx. by apply H, list_elem_of_In.
Qed.

Lemma locked_size_failed (ss : session) :
  session_inv ss →
  Z.of_nat (size (locked ss)) = count_if (λ na, failed na.2) (map_to_list (answers ss)).
Proof.
  intros [_ Hiff].
  set (W := List.map fst (List.filter (λ na : Z * answer, failed na.2)
                            (map_to_list (answers ss)))).
  assert (Hset : locked ss = list_to_set W).
  { apply set_eq. intros k. rewrite elem_of_list_to_set. unfold W.
    rewrite failed_ids_spec, failed_record_spec. apply Hiff. }
  rewrite Hset, size_list_to_set by apply keys_filter_NoDup.
  unfold W, count_if. by rewrite List.length_map.
Qed.

Lemma answers_size_le_bank (bank : list question) (ss : session) :
  records_wf bank ss → (size (answers ss) ≤ length bank)%nat.
Proof.
  intros Hwf. rewrite <- length_map_to_list.
  rewrite <- (List.length_map fst (map_to_list (answers ss))).
  rewrite <- (List.length_map n bank).
  apply NoDup_incl_length;
    [apply NoDup_ListNoDup; exact (NoDup_fst_map_to_list (answers ss))|].
  intros k Hk. apply in_map_iff in Hk as ([k' a] & Hk & Hin). simpl in Hk. subst k'.
  apply list_elem_of_In, elem_of_map_to_list in Hin.
  destruct (Hwf k a Hin) as (_ & _ & q & Hq & Hn & _).
  apply in_map_iff. exists q. split; [done|]. by apply list_elem_of_In.
Qed.

(** X7: in every state that runs of the script reach from the initial one,
    the count of wrong answers in the header is the number of locked
    questions, attempted is correct plus locked, neither attempted nor
    correct exceeds the number of questions of the bank (so the progress
    ratio stays within 0 and 1), and the count of completed batches is
    between 0 and 3. *)
Theorem totals_of_reachable (bank : list question) (evs : list event) :
  t_wrong (totals bank (run_events bank evs init_state)) =
    Z.of_nat (size (locked (run_events bank evs init_state))) ∧
  t_attempted (totals bank (run_events bank evs init_state)) =
    t_correct (totals bank (run_events bank evs init_state)) +
    Z.of_nat (size (locked (run_events bank evs init_state))) ∧
  0 ≤ t_correct (totals bank (run_events bank evs init_state)) ≤
    t_attempted (totals bank (run_events bank evs init_state)) ∧
  t_attempted (totals bank (run_events bank evs init_state)) ≤
    t_total (totals bank (run_events bank evs init_state)) ∧
  0 ≤ t_completed_lots (totals bank (run_events bank evs init_state)) ≤ 3.
Proof.
  destruct (session_wf_run_events bank evs) as [Hinv Hwf].
  set (ss := run_events bank evs init_state) in *.
  pose proof (locked_size_failed ss Hinv) as Hlock.
  pose proof (answers_size_le_bank bank ss Hwf) as Hsize.
  destruct Hinv as [Hpos _].
  set (l := map_to_list (answers ss)) in *.
  assert (Hatt : count_if (λ na : Z * answer, Z.leb 1 (attempts na.2)) l
                 = Z.of_nat (length l)).
  { apply count_if_all. intros [k a] Hin. apply elem_of_map_to_list in Hin.
    apply Z.leb_le. by eapply Hpos. }
  assert (Hfail : count_if (λ na : Z * answer, failed na.2) l
                  = count_if (λ na : Z * answer, negb (correct na.2)) l).
  { apply count_if_ext_in. intros [k a] Hin. apply elem_of_map_to_list in Hin.
    unfold failed. simpl. assert (1 ≤ attempts a) as Hle by by eapply Hpos.
    apply Z.leb_le in Hle. by rewrite Hle. }
  pose proof (count_if_split (λ na : Z * answer, correct na.2) l) as Hsplit.
  pose proof (count_if_le (λ na : Z * answer, correct na.2) l) as Hcle.
  pose proof (count_if_le (is_lot_completed bank ss) [1; 2; 3]) as Hlots.
  assert (Hlen : Z.of_nat (length l) = Z.of_nat (size (answers ss))).
  { unfold l. by rewrite length_map_to_list. }
  unfold totals. fold l. simpl in *. lia.
Qed.

(** ** Further properties: the index, the mode and the feedback slot *)

Lemma get_questions_for_mode_records
    (bank : list question) (s s' : session) (m : string) :
  answers s' = answers s →
  get_questions_for_mode bank s' m = get_questions_for_mode bank s m.
Proof. intros H. unfold get_questions_for_mode. by rewrite H. Qed.

Lemma py_index_in_range {A} (l : list A) (i : Z) :
  0 ≤ i < Z.of_nat (length l) →
  ∃ x, py_index l i = Some x ∧ l !! Z.to_nat i = Some x.
Proof.
  intros Hi. unfold py_index.
  destruct (Z.ltb_spec i 0) as [|_]; [lia|].
  destruct (lookup_lt_is_Some_2 l (Z.to_nat i)) as [x Hx]; [lia|]. eauto.
Qed.

Section IndexFacts.

Variable bank : list question.

Lemma rerun_unfold (ss : session) (qs : list question) :
  get_questions_for_mode bank ss (mode ss) = Returns qs →
  rerun bank ss =
  if Z.eqb (Z.of_nat (length qs)) 0 then ss
  else set_current_index (Z.min (current_index ss) (Z.of_nat (length qs) - 1)) ss.
Proof.
  intros Hqs. unfold rerun, question_flow. rewrite Hqs.
  destruct (Z.eqb _ 0); [done|]. cbv zeta. by destruct (py_index qs _).
Qed.

Lemma index_in_range_empty (ss : session) (qs : list question) :
  get_questions_for_mode bank ss (mode ss) = Returns qs →
  Z.of_nat (length qs) = 0 → 0 ≤ current_index ss → index_in_range bank ss.
Proof.
  intros Hqs Hlen Hidx. split; [done|]. intros qs' Hqs' Hne.
  rewrite Hqs in Hqs'. injection Hqs' as <-. destruct qs; [done | simpl in Hlen; lia].
Qed.

Lemma index_in_range_clamp (ss : session) (qs : list question) :
  get_questions_for_mode bank ss (mode ss) = Returns qs →
  Z.of_nat (length qs) ≠ 0 → 0 ≤ current_index ss →
  index_in_range bank
    (set_current_index (Z.min (current_index ss) (Z.of_nat (length qs) - 1)) ss).
Proof.
  intros Hqs Hlen Hidx. split; [simpl; lia|]. intros qs' Hqs' Hne.
  simpl in Hqs'.
  rewrite (get_questions_for_mode_records bank ss _ (mode ss)) in Hqs' by done.
  rewrite Hqs in Hqs'. injection Hqs' as <-. simpl. lia.
Qed.

Lemma index_in_range_rerun (ss : session) :
  0 ≤ current_index ss → index_in_range bank (rerun bank ss).
Proof.
  intros Hidx.
  destruct (get_questions_for_mode_sublist bank ss (mode ss)) as (qs & Hqs & _).
  rewrite (rerun_unfold ss qs Hqs).
  destruct (Z.eqb_spec (Z.of_nat (length qs)) 0).
  - by eapply index_in_range_empty.
  - by apply index_in_range_clamp.
Qed.

Lemma index_in_range_question_flow
    (on_display : question → session → session) (ss : session) :
  0 ≤ current_index ss →
  (∀ q s, index_in_range bank s → index_in_range bank (on_display q s)) →
  index_in_range bank (question_flow bank on_display ss).
Proof.
  intros Hidx Hdisp. unfold question_flow.
  destruct (get_questions_for_mode_sublist bank ss (mode ss)) as (qs & Hqs & _).
  rewrite Hqs. destruct (Z.eqb_spec (Z.of_nat (length qs)) 0).
  - by eapply index_in_range_empty.
  - cbv zeta. pose proof (index_in_range_clamp ss qs Hqs n0 Hidx) as Hin.
    destruct (py_index qs _); auto.
Qed.

Lemma sidebar_index_nonneg (ev : event) (ss : session) :
  0 ≤ current_index ss → 0 ≤ current_index (sidebar ev ss).
Proof.
  intros H. unfold sidebar. destruct ev as [| l | b | | | o |]; simpl; try done.
  by destruct (negb _).
Qed.

Lemma index_in_range_script_run (ev : event) (ss : session) :
  0 ≤ current_index ss → index_in_range bank (script_run bank ev ss).
Proof.
  intros Hidx. apply (sidebar_index_nonneg ev) in Hidx.
  unfold script_run. cbv zeta.
  destruct ev as [| l | b | | | o |];
    try (apply index_in_range_question_flow; [done|]; intros q s Hin;
         pose proof Hin as [Hs _]); try done.
  - apply index_in_range_rerun. simpl. lia.
  - destruct (responder_disabled q s); [done|]. apply index_in_range_rerun.
    destruct (submit_handler_frame q (radio_value o) s) as (_ & _ & -> & _). lia.
  - apply index_in_range_rerun. simpl. lia.
Qed.

Lemma index_in_range_run_events (evs : list event) :
  index_in_range bank (run_events bank evs init_state).
Proof.
  assert (Hinit : index_in_range bank init_state).
  { split; [done|]. intros qs [= <-] Hne. simpl. destruct bank; [done | simpl; lia]. }
  revert Hinit. generalize init_state as ss.
  induction evs as [|ev evs IH]; intros ss Hss; [done|].
  simpl. apply IH. apply index_in_range_script_run. apply Hss.
Qed.

(** Properties kept by every assignment that the script makes to a key of
    the session. *)
Lemma script_run_setters (P : session → Prop) (ev : event) (ss : session) :
  (∀ i s, P s → P (set_current_index i s)) →
  (∀ s, P s → P (set_last_feedback None s)) →
  (∀ l s, P s → P (set_mode (mode_map l) s)) →
  (∀ b s, P s → P (set_show_correct_between b s)) →
  (∀ m s, P s → P (set_answers m s)) →
  (∀ l s, P s → P (set_locked l s)) →
  P ss → P (script_run bank ev ss).
Proof.
  intros Hidx Hfb Hmode Hshow Hans Hlock Hss.
  assert (Hnext : ∀ s, P s → P (next_question s)) by (intros s Hs; by apply Hfb, Hidx).
  assert (Hside : P (sidebar ev ss)).
  { unfold sidebar. destruct ev as [| l | b | | | o |]; try done.
    - destruct (negb _); [|done]. by apply Hfb, Hidx, Hmode.
    - by apply Hshow. }
  unfold script_run. cbv zeta.
  destruct ev as [| l | b | | | o |];
    try (apply question_flow_preserves; [done | | done]; intros q s Hs); try done.
  - apply rerun_preserves; [done|]. by apply Hfb, Hidx, Hlock, Hans.
  - apply rerun_preserves; [done|]. by apply Hfb, Hidx.
  - destruct (responder_disabled q s); [done|]. apply rerun_preserves; [done|].
    unfold submit_handler. cbv zeta.
    destruct (correct (default _ (answers s !! n q)));
      [|destruct (String.eqb _ (get_correct_letter q))]; auto.
  - apply rerun_preserves; [done|]. by apply Hnext.
Qed.

End IndexFacts.

(** X8: in every state that runs of the script reach from the initial one,
    the index is not negative and, when the list of the current mode is not
    empty, it is a position of that list: the look-up of the question on
    display succeeds, without [IndexError] and without counting from the end,
    and yields a question of the bank. *)
Theorem current_question_exists (bank : list question) (evs : list event) :
  0 ≤ current_index (run_events bank evs init_state) ∧
  ∀ qs,
    get_questions_for_mode bank (run_events bank evs init_state)
      (mode (run_events bank evs init_state)) = Returns qs →
    qs ≠ [] →
    current_index (run_events bank evs init_state) < Z.of_nat (length qs) ∧
    ∃ q, py_index qs (current_index (run_events bank evs init_state)) = Some q ∧
         qs !! Z.to_nat (current_index (run_events bank evs init_state)) = Some q ∧
         q ∈ bank.
Proof.
  destruct (index_in_range_run_events bank evs) as [Hidx Hr].
  split; [done|]. intros qs Hqs Hne. specialize (Hr qs Hqs Hne). split; [done|].
  destruct (py_index_in_range qs _ (conj Hidx Hr)) as (q & Hq & Hl).
  exists q. split; [done|]. split; [done|].
  destruct (get_questions_for_mode_sublist bank (run_events bank evs init_state)
              (mode (run_events bank evs init_state))) as (qs' & Hqs' & Hsub).
  rewrite Hqs in Hqs'. injection Hqs' as <-.
  eapply elem_of_sublist; [|exact Hsub]. by eapply list_elem_of_lookup_2.
Qed.

(** X9: in every state that runs of the script reach from the initial one,
    the mode is one of the five that the resolver knows, and the feedback
    slot holds nothing: the script only ever assigns [None] to it, the
    messages shown after an answer are not kept in the session. *)
Theorem mode_valid_feedback_empty (bank : list question) (evs : list event) :
  mode (run_events bank evs init_state) ∈ valid_modes ∧
  last_feedback (run_events bank evs init_state) = None.
Proof.
  assert (Hinit : mode init_state ∈ valid_modes ∧ last_feedback init_state = None).
  { split; [left | done]. }
  revert Hinit. generalize init_state as ss.
  induction evs as [|ev evs IH]; intros ss Hss; [done|].
  simpl. apply IH.
  apply (script_run_setters bank (λ s, mode s ∈ valid_modes ∧ last_feedback s = None));
    try done.
  - intros s [? _]. done.
  - intros l s [_ ?]. split; [|done]. simpl. unfold valid_modes.
    destruct l; rewrite !elem_of_cons; auto 10.
Qed.

(** ** Further properties: what only a reset undoes *)

Lemma grows_refl (s : session) : grows s s.
Proof. intros k. repeat split; auto. lia. Qed.

Lemma grows_trans (s1 s2 s3 : session) : grows s1 s2 → grows s2 s3 → grows s1 s3.
Proof.
  intros H12 H23 k. destruct (H12 k) as (A1 & A2 & A3 & A4).
  destruct (H23 k) as (B1 & B2 & B3 & B4). repeat split; auto. lia.
Qed.

Lemma grows_records_only (s0 : session) : records_only (grows s0).
Proof. intros s s' Ha Hl H k. rewrite Ha, Hl. apply H. Qed.

Lemma submit_answer_grows (q : question) (c : string) (s : session) :
  grows s (submit_answer q c s).
Proof.
  unfold submit_answer. destruct (responder_disabled q s); [apply grows_refl|].
  intros k.
  assert (Hl : k ∈ locked s → k ∈ locked (submit_handler q c s))
    by apply submit_handler_locked_mono.
  destruct (decide (k = n q)) as [-> | Hne].
  - destruct (get_correct (answers s !! n q)) eqn:Hc.
    + destruct (answers s !! n q) as [a|] eqn:Ha; [|discriminate]. simpl in Hc.
      destruct (submit_handler_already_correct q c s a Ha Hc) as [-> _].
      rewrite lookup_insert_eq. simpl. repeat split; eauto. lia.
    + destruct (decide (c = get_correct_letter q)) as [Heq | Hneq].
      * destruct (submit_handler_right q c s Hc Heq) as [-> _].
        rewrite lookup_insert_eq. simpl. repeat split; eauto. lia.
      * destruct (submit_handler_wrong q c s Hc Hneq) as [-> _].
        rewrite lookup_insert_eq. simpl. repeat split; eauto; lia.
  - destruct (submit_handler_frame q c s) as (_ & _ & _ & _ & Hother).
    rewrite Hother by done. repeat split; auto. lia.
Qed.

Lemma run_events_grows (bank : list question) (evs : list event) (ss : session) :
  ClickReset ∉ evs → grows ss (run_events bank evs ss).
Proof.
  intros Hnr. apply run_events_preserves.
  - apply grows_records_only.
  - intros q c s Hs. eapply grows_trans; [exact Hs | apply submit_answer_grows].
  - done.
  - apply grows_refl.
Qed.

(** X10: from any session, over runs of the script none of which is a
    reset, no record disappears, the attempts of a question do not go down, a
    question that is correct stays correct and a locked one stays locked. *)
Theorem records_grow_until_reset
    (bank : list question) (evs : list event) (ss : session) (k : Z) :
  ClickReset ∉ evs →
  (is_Some (answers ss !! k) → is_Some (answers (run_events bank evs ss) !! k)) ∧
  get_attempts (answers ss !! k) ≤ get_attempts (answers (run_events bank evs ss) !! k) ∧
  (get_correct (answers ss !! k) = true →
   get_correct (answers (run_events bank evs ss) !! k) = true) ∧
  (k ∈ locked ss → k ∈ locked (run_events bank evs ss)).
Proof. intros Hnr. by apply run_events_grows. Qed.

Lemma records_grow_until_reset_witness :
  (ClickReset ∉ [ClickAnterior; ClickResponder OptC; ClickSiguiente]) ∧
  (is_Some (answers scenario_state !! 1) →
   is_Some (answers (run_events scenario_bank
                       [ClickAnterior; ClickResponder OptC; ClickSiguiente]
                       scenario_state) !! 1)) ∧
  get_attempts (answers scenario_state !! 1) ≤
    get_attempts (answers (run_events scenario_bank
                             [ClickAnterior; ClickResponder OptC; ClickSiguiente]
                             scenario_state) !! 1) ∧
  (get_correct (answers scenario_state !! 1) = true →
   get_correct (answers (run_events scenario_bank
                           [ClickAnterior; ClickResponder OptC; ClickSiguiente]
                           scenario_state) !! 1) = true) ∧
  (1 ∈ locked scenario_state →
   1 ∈ locked (run_events scenario_bank
                 [ClickAnterior; ClickResponder OptC; ClickSiguiente] scenario_state)).
Proof.
  assert (H : ClickReset ∉ [ClickAnterior; ClickResponder OptC; ClickSiguiente])
    by not_in_list.
  split; [exact H|].
  exact (records_grow_until_reset scenario_bank
           [ClickAnterior; ClickResponder OptC; ClickSiguiente] scenario_state 1 H).
Defined.

Lemma is_lot_completed_get_correct (bank : list question) (ss : session) (k : Z) :
  is_lot_completed bank ss k = true ↔
  (∃ q, q ∈ List.filter (λ q, bool_decide (lote_id q = Some k)) bank) ∧
  ∀ q, q ∈ List.filter (λ q, bool_decide (lote_id q = Some k)) bank →
       get_correct (answers ss !! n q) = true.
Proof. unfold is_lot_completed. cbv zeta. apply nonempty_forallb. Qed.

Lemma count_if_mono {A} (f g : A → bool) (l : list A) :
  (∀ x, f x = true → g x = true) → count_if f l ≤ count_if g l.
Proof.
  intros H. unfold count_if. apply inj_le.
  induction l as [|x l IH]; simpl; [done|].
  destruct (f x) eqn:Hf.
  - rewrite (H x Hf). simpl. lia.
  - destruct (g x); simpl; lia.
Qed.

(** X11: over runs of the script none of which is a reset, a completed
    batch stays completed, so the number of trophies in the header does not
    go down. *)
Theorem completed_lots_kept_until_reset
    (bank : list question) (evs : list event) (ss : session) :
  ClickReset ∉ evs →
  (∀ k, is_lot_completed bank ss k = true →
        is_lot_completed bank (run_events bank evs ss) k = true) ∧
  t_completed_lots (totals bank ss) ≤
    t_completed_lots (totals bank (run_events bank evs ss)).
Proof.
  intros Hnr. pose proof (run_events_grows bank evs ss Hnr) as Hg.
  assert (Hk : ∀ k, is_lot_completed bank ss k = true →
                    is_lot_completed bank (run_events bank evs ss) k = true).
  { intros k. rewrite !is_lot_completed_get_correct. intros [Hne Hall].
    split; [done|]. intros q Hq. by apply Hg, Hall. }
  split; [exact Hk|]. unfold totals. simpl. by apply count_if_mono.
Qed.

Lemma completed_lots_kept_until_reset_witness :
  (ClickReset ∉ [ClickAnterior; ClickResponder OptC; ClickSiguiente]) ∧
  (∀ k, is_lot_completed scenario_bank scenario_state k = true →
        is_lot_completed scenario_bank
          (run_events scenario_bank [ClickAnterior; ClickResponder OptC; ClickSiguiente]
             scenario_state) k = true) ∧
  t_completed_lots (totals scenario_bank scenario_state) ≤
    t_completed_lots
      (totals scenario_bank
         (run_events scenario_bank [ClickAnterior; ClickResponder OptC; ClickSiguiente]
            scenario_state)).
Proof.
  assert (H : ClickReset ∉ [ClickAnterior; ClickResponder OptC; ClickSiguiente])
    by not_in_list.
  split; [exact H|].
  exact (completed_lots_kept_until_reset scenario_bank
           [ClickAnterior; ClickResponder OptC; ClickSiguiente] scenario_state H).
Defined.

Lemma filter_mono_sublist {A} (f g : A → bool) (l : list A) :
  (∀ x, f x = true → g x = true) → List.filter f l `sublist_of` List.filter g l.
Proof.
  intros H. induction l as [|x l IH]; simpl; [constructor|].
  destruct (f x) eqn:Hf.
  - rewrite (H x Hf). by constructor.
  - destruct (g x); [by constructor | done].
Qed.

(** X12: once the session has been reached by runs of the script from the
    initial one, the questions to review can only be added to until a reset:
    after further runs without a reset, the earlier review list is a
    subsequence of the later one. *)
Theorem review_list_grows_until_reset (bank : list question) (evs1 evs2 : list event) :
  ClickReset ∉ evs2 →
  ∃ qs qs',
    get_questions_for_mode bank (run_events bank evs1 init_state) "review" = Returns qs ∧
    get_questions_for_mode bank
      (run_events bank evs2 (run_events bank evs1 init_state)) "review" = Returns qs' ∧
    qs `sublist_of` qs'.
Proof.
  intros Hnr. set (s1 := run_events bank evs1 init_state).
  eexists _, _. split; [apply review_mode_filter|]. split; [apply review_mode_filter|].
  apply filter_mono_sublist. intros q Hf.
  destruct (session_inv_run_events bank evs1) as [_ Hiff]. fold s1 in Hiff.
  pose proof Hf as Hf'. apply failed_record_spec in Hf' as (a & Ha & Hatt & Hc).
  assert (Hst : stuck (n q) (Some a) (run_events bank evs2 s1)).
  { apply (run_events_preserves bank (stuck (n q) (Some a))).
    - apply stuck_records_only.
    - intros q' c' s. by apply stuck_submit_answer.
    - done.
    - split; [|done]. apply Hiff. eauto. }
  destruct Hst as [_ ->]. simpl. apply failed_spec. done.
Qed.

Lemma review_list_grows_until_reset_witness :
  (ClickReset ∉ [ClickResponder OptA]) ∧
  ∃ qs qs',
    get_questions_for_mode scenario_bank
      (run_events scenario_bank [ClickResponder OptA; ClickResponder OptA] init_state)
      "review" = Returns qs ∧
    get_questions_for_mode scenario_bank
      (run_events scenario_bank [ClickResponder OptA]
         (run_events scenario_bank [ClickResponder OptA; ClickResponder OptA] init_state))
      "review" = Returns qs' ∧
    qs `sublist_of` qs'.
Proof.
  assert (H : ClickReset ∉ [ClickResponder OptA]) by not_in_list.
  split; [exact H|].
  exact (review_list_grows_until_reset scenario_bank
           [ClickResponder OptA; ClickResponder OptA] [ClickResponder OptA] H).
Defined.

(** ** Further properties: the widgets of the question *)

(** X13: in every state that runs of the script reach from the initial one,
    the Responder button and the radio are disabled for exactly the locked
    questions: the two [disabled=] expressions, which read the record in
    different ways, agree with each other and with the locked set. *)
Theorem widgets_disabled_iff_locked
    (bank : list question) (evs : list event) (q : question) :
  responder_disabled q (run_events bank evs init_state) =
    bool_decide (n q ∈ locked (run_events bank evs init_state)) ∧
  radio_disabled q (run_events bank evs init_state) =
    bool_decide (n q ∈ locked (run_events bank evs init_state)).
Proof.
  destruct (session_inv_run_events bank evs) as [_ Hiff].
  set (ss := run_events bank evs init_state) in *.
  unfold responder_disabled, radio_disabled.
  case_bool_decide as Hl; [|done].
  apply Hiff in Hl as (a & Ha & _ & Hc). rewrite Ha. simpl. rewrite Hc. done.
Qed.

Lemma py_list_index_letters (sel : string) :
  sel ∈ ["A"; "B"; "C"] →
  ∃ i, py_list_index sel ["A"; "B"; "C"] = Some i ∧ 0 ≤ i ≤ 2 ∧
       ["A"; "B"; "C"] !! Z.to_nat i = Some sel.
Proof.
  rewrite !elem_of_cons. intros [-> | [-> | [-> | H]]].
  - exists 0. repeat split; lia.
  - exists 1. repeat split; lia.
  - exists 2. repeat split; lia.
  - by apply elem_of_nil in H.
Qed.

(** X14: the position at which the radio opens is always defined and one
    of 0, 1, 2, whatever the record holds ([list.index] is only called on a
    letter of the list); it is 0 without a record; and in every state that
    runs of the script reach from the initial one it is the position of the
    letter stored in the record. *)
Theorem radio_index_defined (bank : list question) (evs : list event) (k : Z) :
  (∀ prev_answer, ∃ i, radio_index prev_answer = Some i ∧ 0 ≤ i ≤ 2) ∧
  radio_index None = Some 0 ∧
  ∃ i, radio_index (answers (run_events bank evs init_state) !! k) = Some i ∧
       ∀ a, answers (run_events bank evs init_state) !! k = Some a →
            selected a = ["A"; "B"; "C"] !! Z.to_nat i.
Proof.
  split; [|split; [done|]].
  - intros prev. unfold radio_index.
    destruct (prev ≫= selected) as [sel|]; [|exists 0; split; [done | lia]].
    case_bool_decide as Hsel; [|exists 0; split; [done | lia]].
    destruct (py_list_index_letters sel Hsel) as (i & Hi & Hr & _). eauto.
  - destruct (session_wf_run_events bank evs) as [_ Hwf].
    destruct (answers (run_events bank evs init_state) !! k) as [a|] eqn:Ha.
    + destruct (Hwf k a Ha) as (_ & [o Ho] & _).
      assert (Hsel : radio_value o ∈ ["A"; "B"; "C"]).
      { destruct o; simpl; rewrite !elem_of_cons; auto. }
      destruct (py_list_index_letters _ Hsel) as (i & Hi & _ & Hnth).
      exists i. unfold radio_index. simpl. rewrite Ho.
      rewrite bool_decide_eq_true_2 by done. split; [done|].
      intros a' [= <-]. by rewrite Ho.
    + exists 0. split; [done|]. intros a' Ha'. discriminate.
Qed.

(** ** Further properties: the summary panel *)

Lemma mode_list_length (f : Z * answer → bool) (m : gmap Z answer) :
  Z.of_nat (length (List.map fst (List.filter f (map_to_list m)))) =
  count_if f (map_to_list m).
Proof. unfold count_if. by rewrite List.length_map. Qed.

Lemma elem_of_mode_ids (questions : list question) (k : Z) :
  k ∈ mode_ids questions ↔ ∃ q, q ∈ questions ∧ n q = k.
Proof.
  unfold mode_ids. rewrite elem_of_list_to_set, elem_of_map_bool. split.
  - intros (q & -> & Hq). eauto.
  - intros (q & Hq & <-). eauto.
Qed.

Lemma filter_all_false {A} (f : A → bool) (l : list A) :
  (∀ x, x ∈ l → f x = false) → List.filter f l = [].
Proof.
  intros H. induction l as [|x l IH]; [done|]. simpl.
  rewrite (H x) by left. apply IH. intros y Hy. apply H. by right.
Qed.

(** X15: in review mode the panel counts no correct answer and lists the
    same numbers as attempted and as wrong, in any session: a number of the
    review list has a failed record. *)
Theorem review_summary (bank : list question) (ss : session) :
  ∃ qs, get_questions_for_mode bank ss "review" = Returns qs ∧
        mode_correct qs ss = [] ∧
        mode_attempted qs ss = mode_wrong qs ss.
Proof.
  eexists. split; [apply review_mode_filter|].
  set (qs := List.filter _ bank).
  assert (Hfail : ∀ k a, answers ss !! k = Some a → k ∈ mode_ids qs → failed a = true).
  { intros k a Ha Hk. apply elem_of_mode_ids in Hk as (q & Hq & <-).
    unfold qs in Hq. apply elem_of_filter_bool in Hq as [_ Hf].
    by rewrite Ha in Hf. }
  split.
  - unfold mode_correct.
    rewrite filter_all_false; [done|]. intros [k a] Hin. simpl.
    apply elem_of_map_to_list in Hin.
    case_bool_decide as Hk; [|done]. simpl.
    apply (Hfail k a Hin), failed_spec in Hk as [_ ->]. done.
  - unfold mode_attempted, mode_wrong. f_equal. apply filter_ext_in.
    intros [k a] Hin. simpl. apply list_elem_of_In, elem_of_map_to_list in Hin.
    case_bool_decide as Hk; [|done]. simpl.
    apply (Hfail k a Hin), failed_spec in Hk as [_ ->]. simpl. by rewrite andb_true_r.
Qed.

(** X16: in every state that runs of the script reach from the initial
    one, the panel of any list of questions shows attempted = correct +
    wrong; and for the whole bank (the full mode) its three counts are those
    of the header. *)
Theorem summary_counts (bank : list question) (evs : list event)
    (questions : list question) :
  length (mode_attempted questions (run_events bank evs init_state)) =
    (length (mode_correct questions (run_events bank evs init_state)) +
     length (mode_wrong questions (run_events bank evs init_state)))%nat ∧
  Z.of_nat (length (mode_attempted bank (run_events bank evs init_state))) =
    t_attempted (totals bank (run_events bank evs init_state)) ∧
  Z.of_nat (length (mode_correct bank (run_events bank evs init_state))) =
    t_correct (totals bank (run_events bank evs init_state)) ∧
  Z.of_nat (length (mode_wrong bank (run_events bank evs init_state))) =
    t_wrong (totals bank (run_events bank evs init_state)).
Proof.
  destruct (session_wf_run_events bank evs) as [[Hpos _] Hwf].
  set (ss := run_events bank evs init_state) in *.
  set (l := map_to_list (answers ss)).
  assert (Hatt : ∀ na, na ∈ l → Z.leb 1 (attempts na.2) = true).
  { intros [k a] Hin. apply elem_of_map_to_list in Hin. apply Z.leb_le.
    by eapply Hpos. }
  assert (Hids : ∀ na, na ∈ l → bool_decide (na.1 ∈ mode_ids bank) = true).
  { intros [k a] Hin. apply elem_of_map_to_list in Hin.
    destruct (Hwf k a Hin) as (_ & _ & q & Hq & Hn & _).
    apply bool_decide_eq_true_2, elem_of_mode_ids. eauto. }
  assert (Hsum : ∀ qs,
    count_if (λ na : Z * answer, bool_decide (na.1 ∈ mode_ids qs) && Z.leb 1 (attempts na.2)) l
    = count_if (λ na : Z * answer, bool_decide (na.1 ∈ mode_ids qs) && correct na.2) l
    + count_if (λ na : Z * answer,
        bool_decide (na.1 ∈ mode_ids qs) && Z.leb 1 (attempts na.2) && negb (correct na.2)) l).
  { intros qs. unfold count_if. rewrite <- Nat2Z.inj_add. f_equal.
    induction l as [|na l' IH]; [done|]. simpl.
    rewrite (Hatt na) by left.
    assert (IH' := IH (λ x Hx, Hatt x (list_elem_of_further _ _ _ Hx))
                      (λ x Hx, Hids x (list_elem_of_further _ _ _ Hx))).
    destruct (bool_decide (na.1 ∈ mode_ids qs)), (correct na.2); simpl; lia. }
  split; [|split; [|split]].
  - apply Nat2Z.inj. rewrite Nat2Z.inj_add.
    unfold mode_attempted, mode_correct, mode_wrong. rewrite !mode_list_length.
    apply Hsum.
  - unfold mode_attempted, totals. rewrite mode_list_length. simpl.
    apply count_if_ext_in. intros na Hin. fold l in Hin. by rewrite (Hids na Hin).
  - unfold mode_correct, totals. rewrite mode_list_length. simpl.
    apply count_if_ext_in. intros na Hin. fold l in Hin. by rewrite (Hids na Hin).
  - unfold mode_wrong. rewrite mode_list_length. fold l.
    assert (Hw : t_wrong (totals bank ss)
                 = count_if (λ na : Z * answer, Z.leb 1 (attempts na.2)) l
                   - count_if (λ na : Z * answer, correct na.2) l) by reflexivity.
    rewrite Hw.
    rewrite (count_if_ext_in (λ na : Z * answer, Z.leb 1 (attempts na.2))
               (λ na : Z * answer, bool_decide (na.1 ∈ mode_ids bank) && Z.leb 1 (attempts na.2)) l)
      by (intros na Hin; by rewrite (Hids na Hin)).
    rewrite (count_if_ext_in (λ na : Z * answer, correct na.2)
               (λ na : Z * answer, bool_decide (na.1 ∈ mode_ids bank) && correct na.2) l)
      by (intros na Hin; by rewrite (Hids na Hin)).
    rewrite (Hsum bank). lia.
Qed.

(** ** Further properties: navigation, mode and display preference *)

Section NavigationFacts.

Variable bank : list question.

Lemma question_flow_unfold
    (on_display : question → session → session) (ss : session) (qs : list question) :
  get_questions_for_mode bank ss (mode ss) = Returns qs → qs ≠ [] →
  0 ≤ current_index ss →
  ∃ q, q ∈ qs ∧
    question_flow bank on_display ss =
    on_display q
      (set_current_index (Z.min (current_index ss) (Z.of_nat (length qs) - 1)) ss).
Proof.
  intros Hqs Hne Hidx. unfold question_flow. rewrite Hqs.
  assert (Hlen : Z.of_nat (length qs) ≠ 0) by (destruct qs; [done | simpl; lia]).
  destruct (Z.eqb_spec (Z.of_nat (length qs)) 0); [done|]. cbv zeta.
  destruct (py_index_in_range qs
              (Z.min (current_index ss) (Z.of_nat (length qs) - 1))) as (q & Hq & Hl);
    [lia|].
  exists q. split; [by eapply list_elem_of_lookup_2|]. simpl. by rewrite Hq.
Qed.

(** X17: with a non-empty list on display, Siguiente moves the index one
    position forward but not past the last question, and Anterior one
    position back but not before the first; neither touches the answers, the
    locked set or the mode. *)
Theorem navigation_stays_in_list (ss : session) (qs : list question) :
  get_questions_for_mode bank ss (mode ss) = Returns qs → qs ≠ [] →
  0 ≤ current_index ss →
  current_index (script_run bank ClickSiguiente ss) =
    Z.min (current_index ss + 1) (Z.of_nat (length qs) - 1) ∧
  current_index (script_run bank ClickAnterior ss) =
    Z.max 0 (Z.min (current_index ss) (Z.of_nat (length qs) - 1) - 1) ∧
  answers (script_run bank ClickSiguiente ss) = answers ss ∧
  locked (script_run bank ClickSiguiente ss) = locked ss ∧
  mode (script_run bank ClickSiguiente ss) = mode ss ∧
  answers (script_run bank ClickAnterior ss) = answers ss ∧
  locked (script_run bank ClickAnterior ss) = locked ss ∧
  mode (script_run bank ClickAnterior ss) = mode ss.
Proof.
  intros Hqs Hne Hidx.
  assert (Hlen : 1 ≤ Z.of_nat (length qs)) by (destruct qs; [done | simpl; lia]).
  assert (Hrr : ∀ s, answers s = answers ss → mode s = mode ss →
                     rerun bank s =
                     set_current_index
                       (Z.min (current_index s) (Z.of_nat (length qs) - 1)) s).
  { intros s Ha Hm. rewrite (rerun_unfold bank s qs).
    - destruct (Z.eqb_spec (Z.of_nat (length qs)) 0); [lia | done].
    - by rewrite Hm, (get_questions_for_mode_records bank ss s). }
  unfold script_run. simpl sidebar. cbv zeta.
  destruct (question_flow_unfold (λ q s, rerun bank (next_question s)) ss qs Hqs Hne Hidx)
    as (q1 & _ & ->).
  destruct (question_flow_unfold (λ q s, rerun bank (prev_question s)) ss qs Hqs Hne Hidx)
    as (q2 & _ & ->).
  rewrite !Hrr by done. simpl. repeat split; lia.
Qed.

(** X18: choosing a mode in the side bar makes it the mode of the session
    and leaves the answers, the locked set and the display preference alone;
    when the mode chosen is another one than before, the index goes back to
    0. *)
Theorem select_mode_effect (l : mode_label) (ss : session) :
  mode (script_run bank (SelectMode l) ss) = mode_map l ∧
  answers (script_run bank (SelectMode l) ss) = answers ss ∧
  locked (script_run bank (SelectMode l) ss) = locked ss ∧
  show_correct_between (script_run bank (SelectMode l) ss) = show_correct_between ss ∧
  (mode_map l ≠ mode ss →
   current_index (script_run bank (SelectMode l) ss) = 0 ∧
   last_feedback (script_run bank (SelectMode l) ss) = None).
Proof.
  assert (Hrun : script_run bank (SelectMode l) ss = rerun bank (sidebar (SelectMode l) ss))
    by reflexivity.
  rewrite Hrun. unfold sidebar.
  destruct (String.eqb_spec (mode_map l) (mode ss)) as [Heq | Hne]; simpl.
  - repeat split.
    + by apply (rerun_preserves bank (λ s, mode s = mode_map l)).
    + by apply (rerun_preserves bank (λ s, answers s = answers ss)).
    + by apply (rerun_preserves bank (λ s, locked s = locked ss)).
    + by apply (rerun_preserves bank (λ s, show_correct_between s = show_correct_between ss)).
    + done.
    + done.
  - repeat split.
    + by apply (rerun_preserves bank (λ s, mode s = mode_map l)).
    + by apply (rerun_preserves bank (λ s, answers s = answers ss)).
    + by apply (rerun_preserves bank (λ s, locked s = locked ss)).
    + by apply (rerun_preserves bank (λ s, show_correct_between s = show_correct_between ss)).
    + by apply rerun_current_index_0.
    + by apply (rerun_preserves bank (λ s, last_feedback s = None)).
Qed.

(** The display preference is read nowhere in the engine. *)
Lemma question_flow_show (b : bool)
    (f g : question → session → session) (ss : session) :
  (∀ q s, f q (set_show_correct_between b s) = set_show_correct_between b (g q s)) →
  question_flow bank f (set_show_correct_between b ss) =
  set_show_correct_between b (question_flow bank g ss).
Proof.
  intros Hfg. unfold question_flow. simpl.
  rewrite (get_questions_for_mode_records bank ss (set_show_correct_between b ss)) by done.
  destruct (get_questions_for_mode bank ss (mode ss)) as [qs|e]; [|done].
  destruct (Z.eqb _ 0); [done|].
  destruct (py_index qs _) as [q|]; [|done].
  exact (Hfg q (set_current_index _ ss)).
Qed.

Lemma rerun_show (b : bool) (ss : session) :
  rerun bank (set_show_correct_between b ss) = set_show_correct_between b (rerun bank ss).
Proof. unfold rerun. by apply question_flow_show. Qed.

Lemma submit_handler_show (b : bool) (q : question) (c : string) (ss : session) :
  submit_handler q c (set_show_correct_between b ss) =
  set_show_correct_between b (submit_handler q c ss).
Proof.
  unfold submit_handler. simpl.
  destruct (correct (default _ (answers ss !! n q)));
    [|destruct (String.eqb c (get_correct_letter q))]; done.
Qed.

Lemma sidebar_show (b : bool) (ev : event) (ss : session) :
  sidebar ev (set_show_correct_between b ss) =
  set_show_correct_between
    (match ev with ToggleShow b0 => b0 | _ => b end) (sidebar ev ss).
Proof.
  unfold sidebar. destruct ev as [| l | b0 | | | o |]; simpl; try done.
  by destruct (negb _).
Qed.

Lemma script_run_show (b : bool) (ev : event) (ss : session) :
  ∃ b', script_run bank ev (set_show_correct_between b ss) =
        set_show_correct_between b' (script_run bank ev ss).
Proof.
  exists (match ev with ToggleShow b0 => b0 | _ => b end).
  unfold script_run. cbv zeta. rewrite sidebar_show.
  generalize (sidebar ev ss) as s0. intros s0.
  destruct ev as [| l | b0 | | | o |]; try (by apply question_flow_show).
  - exact (rerun_show b (reset_results s0)).
  - apply question_flow_show. intros q s. exact (rerun_show b (prev_question s)).
  - apply question_flow_show. intros q s. unfold responder_disabled. simpl.
    destruct (_ && _); [done|]. by rewrite submit_handler_show, rerun_show.
  - apply question_flow_show. intros q s. exact (rerun_show b (next_question s)).
Qed.

Lemma run_events_show (b : bool) (evs : list event) (ss : session) :
  ∃ b', run_events bank evs (set_show_correct_between b ss) =
        set_show_correct_between b' (run_events bank evs ss).
Proof.
  revert b ss. induction evs as [|ev evs IH]; intros b ss; [by exists b|].
  simpl. destruct (script_run_show b ev ss) as [b' ->]. apply IH.
Qed.

(** X19: the preference "show the correct answer between questions" has no
    effect on what the engine does: whatever its value, the same events lead
    to the same answers, locked set, index, mode and feedback slot. *)
Theorem show_correct_between_inert (b : bool) (evs : list event) (ss : session) :
  answers (run_events bank evs (set_show_correct_between b ss)) =
    answers (run_events bank evs ss) ∧
  locked (run_events bank evs (set_show_correct_between b ss)) =
    locked (run_events bank evs ss) ∧
  current_index (run_events bank evs (set_show_correct_between b ss)) =
    current_index (run_events bank evs ss) ∧
  mode (run_events bank evs (set_show_correct_between b ss)) =
    mode (run_events bank evs ss) ∧
  last_feedback (run_events bank evs (set_show_correct_between b ss)) =
    last_feedback (run_events bank evs ss).
Proof. destruct (run_events_show b evs ss) as [b' ->]. done. Qed.

End NavigationFacts.

Lemma navigation_stays_in_list_witness :
  get_questions_for_mode scenario_bank scenario_state (mode scenario_state)
    = Returns scenario_bank ∧
  scenario_bank ≠ [] ∧
  0 ≤ current_index scenario_state ∧
  current_index (script_run scenario_bank ClickSiguiente scenario_state) =
    Z.min (current_index scenario_state + 1) (Z.of_nat (length scenario_bank) - 1) ∧
  current_index (script_run scenario_bank ClickAnterior scenario_state) =
    Z.max 0 (Z.min (current_index scenario_state)
               (Z.of_nat (length scenario_bank) - 1) - 1) ∧
  answers (script_run scenario_bank ClickSiguiente scenario_state)
    = answers scenario_state ∧
  locked (script_run scenario_bank ClickSiguiente scenario_state)
    = locked scenario_state ∧
  mode (script_run scenario_bank ClickSiguiente scenario_state)
    = mode scenario_state ∧
  answers (script_run scenario_bank ClickAnterior scenario_state)
    = answers scenario_state ∧
  locked (script_run scenario_bank ClickAnterior scenario_state)
    = locked scenario_state ∧
  mode (script_run scenario_bank ClickAnterior scenario_state)
    = mode scenario_state.
Proof.
  assert (H1 : get_questions_for_mode scenario_bank scenario_state (mode scenario_state)
               = Returns scenario_bank) by reflexivity.
  assert (H2 : scenario_bank ≠ []) by discriminate.
  assert (H3 : 0 ≤ current_index scenario_state) by (vm_compute; discriminate).
  split; [exact H1|]. split; [exact H2|]. split; [exact H3|].
  exact (navigation_stays_in_list scenario_bank scenario_state scenario_bank H1 H2 H3).
Defined.

(** ** Further properties: the answer key *)

Section KeyFacts.
Import Text.

Lemma char_case_facts (c : ascii) :
  is_space (upper_char c) = is_space c ∧
  is_space (lower_char c) = is_space c ∧
  upper_char (upper_char c) = upper_char c ∧
  lower_char (upper_char c) = lower_char c ∧
  upper_char (lower_char c) = upper_char c ∧
  lower_char (lower_char c) = lower_char c.
Proof. destruct c as [[] [] [] [] [] [] [] []]; repeat split. Qed.

Lemma upper_upper s : upper (upper s) = upper s.
Proof. induction s as [|c s IH]; simpl; [done|]. rewrite IH. f_equal. apply char_case_facts. Qed.
Lemma lower_upper s : lower (upper s) = lower s.
Proof. induction s as [|c s IH]; simpl; [done|]. rewrite IH. f_equal. apply char_case_facts. Qed.
Lemma upper_lower s : upper (lower s) = upper s.
Proof. induction s as [|c s IH]; simpl; [done|]. rewrite IH. f_equal. apply char_case_facts. Qed.
Lemma lower_lower s : lower (lower s) = lower s.
Proof. induction s as [|c s IH]; simpl; [done|]. rewrite IH. f_equal. apply char_case_facts. Qed.

Lemma lstrip_upper s : lstrip (upper s) = upper (lstrip s).
Proof.
  induction s as [|c s IH]; simpl; [done|].
  destruct (char_case_facts c) as (-> & _). by destruct (is_space c).
Qed.

Lemma lstrip_lower s : lstrip (lower s) = lower (lstrip s).
Proof.
  induction s as [|c s IH]; simpl; [done|].
  destruct (char_case_facts c) as (_ & -> & _). by destruct (is_space c).
Qed.

Lemma rstrip_upper s : rstrip (upper s) = upper (rstrip s).
Proof.
  induction s as [|c s IH]; simpl; [done|]. rewrite IH.
  destruct (char_case_facts c) as (-> & _).
  destruct (rstrip s); simpl; [by destruct (is_space c) | done].
Qed.

Lemma rstrip_lower s : rstrip (lower s) = lower (rstrip s).
Proof.
  induction s as [|c s IH]; simpl; [done|]. rewrite IH.
  destruct (char_case_facts c) as (_ & -> & _).
  destruct (rstrip s); simpl; [by destruct (is_space c) | done].
Qed.

Lemma strip_upper s : strip (upper s) = upper (strip s).
Proof. unfold strip. by rewrite lstrip_upper, rstrip_upper. Qed.

Lemma strip_lower s : strip (lower s) = lower (strip s).
Proof. unfold strip. by rewrite lstrip_lower, rstrip_lower. Qed.

Lemma rstrip_rstrip s : rstrip (rstrip s) = rstrip s.
Proof.
  induction s as [|c s IH]; simpl; [done|].
  destruct (rstrip s) as [|a t] eqn:E.
  - destruct (is_space c) eqn:Hc; simpl; [done|]. by rewrite Hc.
  - simpl in *. by rewrite IH.
Qed.

Lemma lstrip_head s :
  lstrip s = EmptyString ∨ ∃ c t, lstrip s = String c t ∧ is_space c = false.
Proof.
  induction s as [|c s IH]; simpl; [by left|].
  destruct (is_space c) eqn:Hc; [done|]. right. eauto.
Qed.

Lemma rstrip_head c t :
  is_space c = false → ∃ t', rstrip (String c t) = String c t'.
Proof. intros Hc. simpl. destruct (rstrip t); [rewrite Hc|]; eauto. Qed.

Lemma strip_strip s : strip (strip s) = strip s.
Proof.
  unfold strip. destruct (lstrip_head s) as [-> | (c & t & -> & Hc)]; [done|].
  destruct (rstrip_head c t Hc) as [t' Ht']. rewrite Ht'.
  simpl lstrip. rewrite Hc, <- Ht'. apply rstrip_rstrip.
Qed.

Lemma get_correct_letter_key (k : Z) (l : option Z) (p : string) (a b c : pyval)
    (s s' : string) :
  upper (strip s) = upper (strip s') →
  lower (strip s) = lower (strip s') →
  get_correct_letter (Question k l p a b c (PStr s)) =
  get_correct_letter (Question k l p a b c (PStr s')).
Proof.
  intros HU HL. unfold get_correct_letter, option_matches. simpl.
  by rewrite HU, HL.
Qed.

(** X20: the answer key is read without regard to case and to blanks around
    it (for text in the ASCII range, as modelled): writing [correcta] in
    upper case, in lower case or trimmed gives the same correct letter, for a
    key that is a letter as for one that is the text of an option. *)
Theorem get_correct_letter_key_insensitive
    (k : Z) (l : option Z) (p : string) (a b c : pyval) (s : string) :
  get_correct_letter (Question k l p a b c (PStr (upper s))) =
    get_correct_letter (Question k l p a b c (PStr s)) ∧
  get_correct_letter (Question k l p a b c (PStr (lower s))) =
    get_correct_letter (Question k l p a b c (PStr s)) ∧
  get_correct_letter (Question k l p a b c (PStr (strip s))) =
    get_correct_letter (Question k l p a b c (PStr s)).
Proof.
  split; [|split]; apply get_correct_letter_key.
  - by rewrite strip_upper, upper_upper.
  - by rewrite strip_upper, lower_upper.
  - by rewrite strip_lower, upper_lower.
  - by rewrite strip_lower, lower_lower.
  - by rewrite strip_strip.
  - by rewrite strip_strip.
Qed.

End KeyFacts.

(** X21: the fall-back of the resolution is always "A": when the correct
    letter is "B" or "C", the key is a text and either it is that letter
    (trimmed, without regard to case) or the option of that letter is not
    empty and its text equals the key. *)
Theorem non_default_letter_is_matched (q : question) :
  get_correct_letter q ≠ "A" →
  ∃ corr,
    correcta q = PStr corr ∧
    (Text.upper (Text.strip corr) = get_correct_letter q ∨
     ∃ v, (get_correct_letter q, v) ∈ [("B", respuesta_b q); ("C", respuesta_c q)] ∧
          truthy v = true ∧ ci_equal (py_str v) corr = true).
Proof.
  unfold get_correct_letter.
  destruct (correcta q) as [| b | z | corr]; try done.
  intros Hne. exists corr. split; [done|]. revert Hne. cbv zeta.
  case_bool_decide as Hin; [by left|].
  rewrite find_option_matches. unfold first_text_match.
  destruct (truthy (respuesta_a q) && _); [done|].
  destruct (truthy (respuesta_b q) && _) eqn:Hb.
  { intros _. right. apply andb_true_iff in Hb as [? ?].
    exists (respuesta_b q). split; [left | done]. }
  destruct (truthy (respuesta_c q) && _) eqn:Hc; [|done].
  intros _. right. apply andb_true_iff in Hc as [? ?].
  exists (respuesta_c q). split; [right; left | done].
Qed.

Lemma non_default_letter_is_matched_witness :
  get_correct_letter
    (Question 4 (Some 2) "p4" (PStr "uno") (PStr "dos") (PStr "tres") (PStr " Tres")) ≠ "A" ∧
  ∃ corr,
    correcta
      (Question 4 (Some 2) "p4" (PStr "uno") (PStr "dos") (PStr "tres") (PStr " Tres"))
      = PStr corr ∧
    (Text.upper (Text.strip corr) =
       get_correct_letter
         (Question 4 (Some 2) "p4" (PStr "uno") (PStr "dos") (PStr "tres") (PStr " Tres")) ∨
     ∃ v, (get_correct_letter
             (Question 4 (Some 2) "p4" (PStr "uno") (PStr "dos") (PStr "tres")
                (PStr " Tres")), v)
            ∈ [("B", respuesta_b
                       (Question 4 (Some 2) "p4" (PStr "uno") (PStr "dos") (PStr "tres")
                          (PStr " Tres")));
               ("C", respuesta_c
                       (Question 4 (Some 2) "p4" (PStr "uno") (PStr "dos") (PStr "tres")
                          (PStr " Tres")))] ∧
          truthy v = true ∧ ci_equal (py_str v) corr = true).
Proof.
  assert (H : get_correct_letter
                (Question 4 (Some 2) "p4" (PStr "uno") (PStr "dos") (PStr "tres")
                   (PStr " Tres")) ≠ "A") by discriminate.
  split; [exact H|].
  exact (non_default_letter_is_matched _ H).
Defined.

(** ** Further properties: runs that change nothing *)

Lemma set_current_index_same (s : session) : set_current_index (current_index s) s = s.
Proof. by destruct s. Qed.

Lemma rerun_in_range (bank : list question) (s : session) :
  index_in_range bank s → rerun bank s = s.
Proof.
  intros [Hidx Hr].
  destruct (get_questions_for_mode_sublist bank s (mode s)) as (qs & Hqs & _).
  rewrite (rerun_unfold bank s qs Hqs).
  destruct (Z.eqb_spec (Z.of_nat (length qs)) 0) as [|Hne]; [done|].
  assert (Hlt : current_index s < Z.of_nat (length qs)).
  { apply Hr; [done|]. intros ->. by apply Hne. }
  rewrite Z.min_l by lia. apply set_current_index_same.
Qed.

(** X22: on a session reached by runs of the script from the initial one,
    a run in which no widget fired changes nothing, and neither does choosing
    again the mode in force or setting the display preference to the value it
    has: the clamp of the index only acts after the list has changed. *)
Theorem idle_runs_change_nothing
    (bank : list question) (evs : list event) (l : mode_label) :
  script_run bank Rerun (run_events bank evs init_state) = run_events bank evs init_state ∧
  (mode_map l = mode (run_events bank evs init_state) →
   script_run bank (SelectMode l) (run_events bank evs init_state) =
   run_events bank evs init_state) ∧
  script_run bank
    (ToggleShow (show_correct_between (run_events bank evs init_state)))
    (run_events bank evs init_state) = run_events bank evs init_state.
Proof.
  pose proof (index_in_range_run_events bank evs) as Hin.
  set (ss := run_events bank evs init_state) in *.
  split; [|split].
  - exact (rerun_in_range bank ss Hin).
  - intros Hm.
    assert (Hside : sidebar (SelectMode l) ss = ss).
    { unfold sidebar. by rewrite Hm, String.eqb_refl. }
    assert (Hrun : script_run bank (SelectMode l) ss
                   = rerun bank (sidebar (SelectMode l) ss)) by reflexivity.
    rewrite Hrun, Hside. by apply rerun_in_range.
  - assert (Hside : set_show_correct_between (show_correct_between ss) ss = ss)
      by by destruct ss.
    assert (Hrun : script_run bank (ToggleShow (show_correct_between ss)) ss
                   = rerun bank (set_show_correct_between (show_correct_between ss) ss))
      by reflexivity.
    rewrite Hrun, Hside. by apply rerun_in_range.
Qed.

(** C4 (amended) for the methods on ASCII text: [Text.upper], [Text.lower]
    and [Text.strip] fold the three letters alike, so [get_correct_letter]
    is the guarded algorithm for every question. *)
Lemma get_correct_letter_reference_witness :
  letters_fold_alike Text.upper Text.lower Text.strip ∧
  ∀ q, get_correct_letter q = guarded_correct_letter_with Text.lower Text.strip q ∧
       get_correct_letter q ∈ ["A"; "B"; "C"].
Proof.
  assert (H : letters_fold_alike Text.upper Text.lower Text.strip).
  { intros letter t Hin. rewrite !elem_of_cons in Hin.
    destruct Hin as [-> | [-> | [-> | Hin]]].
    - apply upper_A.
    - apply upper_B.
    - apply upper_C.
    - by apply elem_of_nil in Hin. }
  split; [exact H|].
  intros q. exact (get_correct_letter_reference Text.upper Text.lower Text.strip q H).
Defined.
